(** * tokman: the token cache of [tokman/app.py]

    A shallow embedding of the [Token] model, of [Token.is_expired], of
    [get_token] and of the [AccessToken.get] handler, with the [tokens]
    table and the GitHub integration as explicit state. *)

From Stdlib Require Import ZArith List String Bool Lia.
Import ListNotations.
Local Open Scope string_scope.
Local Open Scope list_scope.
Local Open Scope Z_scope.

(** ** [datetime] and [timedelta]

    A naive [datetime] is the number of microseconds since a fixed
    origin; [datetime.__sub__] builds a [timedelta], whose constructor
    normalises its fields so that [0 <= seconds < 86400] and
    [0 <= microseconds < 1000000], the sign being carried by [days]. *)

Module Datetime.

Definition datetime := Z.

Record timedelta := mk_timedelta
  { days : Z; seconds : Z; microseconds : Z }.

Definition us_per_second : Z := 1000000.
Definition seconds_per_day : Z := 86400.
Definition us_per_day : Z := seconds_per_day * us_per_second.

(** [timedelta(microseconds=us)]: floor division, as [divmod] does. *)
Definition timedelta_of_us (us : Z) : timedelta :=
  {| days := us / us_per_day;
     seconds := (us mod us_per_day) / us_per_second;
     microseconds := us mod us_per_second |}.

(** [a - b] on two datetimes. *)
Definition sub (a b : datetime) : timedelta := timedelta_of_us (a - b).

(** [timedelta.total_seconds() < n] for an integer [n]. *)
Definition total_seconds_lt (a b : datetime) (n : Z) : Prop :=
  a - b < n * us_per_second.

(** [t + timedelta(seconds=n)]. *)
Definition plus_seconds (t : datetime) (n : Z) : datetime :=
  t + n * us_per_second.

End Datetime.
Import Datetime.

(** ** The [Token] model (table [tokens]) *)

Record Token := mkToken
  { id : option Z;                (* primary key, [None] until inserted *)
    namespace : string;           (* unique, not nullable *)
    repository : string;          (* unique, not nullable *)
    token : option string;        (* unique, nullable *)
    expires_at : option datetime  (* nullable *) }.

(** [Token(namespace=namespace, repository=repository)] *)
Definition new_Token (ns repo : string) : Token :=
  {| id := None; namespace := ns; repository := repo;
     token := None; expires_at := None |}.

(** *** [Token.is_expired], operand by operand

    The body is [a or b or c]; the operands are evaluated left to right
    until one is true.  The third operand reads the clock and subtracts
    from [self.expires_at], which raises [TypeError] on [None]. *)

Inductive operand :=
| ExpiresAtIsNone      (* self.expires_at is None *)
| TokenIsNone          (* self.token is None *)
| SecondsLtRenewAt.    (* (self.expires_at - utcnow()).seconds < token_renew_at *)

Definition is_none {A} (o : option A) : bool :=
  match o with None => true | Some _ => false end.

(** An operand's value; [None] stands for a raised [TypeError]. *)
Definition eval_operand (token_renew_at : Z) (self : Token)
    (utcnow : datetime) (op : operand) : option bool :=
  match op with
  | ExpiresAtIsNone => Some (is_none (expires_at self))
  | TokenIsNone => Some (is_none (token self))
  | SecondsLtRenewAt =>
      match expires_at self with
      | None => None
      | Some e => Some (seconds (sub e utcnow) <? token_renew_at)
      end
  end.

(** Python's [or] over a list of operands: the value, and the operands
    that were evaluated, in order. *)
Fixpoint py_or (ev : operand -> option bool) (ops : list operand)
    : option bool * list operand :=
  match ops with
  | [] => (Some false, [])
  | op :: rest =>
      match ev op with
      | None => (None, [op])
      | Some true => (Some true, [op])
      | Some false =>
          let '(v, seen) := py_or ev rest in (v, op :: seen)
      end
  end.

Definition is_expired_operands : list operand :=
  [ExpiresAtIsNone; TokenIsNone; SecondsLtRenewAt].

Definition is_expired_eval (token_renew_at : Z) (self : Token)
    (utcnow : datetime) : option bool * list operand :=
  py_or (eval_operand token_renew_at self utcnow) is_expired_operands.

(** *** [Token.is_expired] as a boolean *)
Definition is_expired (token_renew_at : Z) (self : Token)
    (utcnow : datetime) : bool :=
  match expires_at self with
  | None => true
  | Some e =>
      match token self with
      | None => true
      | Some _ => seconds (sub e utcnow) <? token_renew_at
      end
  end.

(** Rule 3 of the renewal policy in the specification's words:
    [expiresAt - now], in seconds, is below the threshold.  The
    difference is taken as a whole and is negative once the expiry is
    past.  [is_expired] above is the code; this is what it is compared
    with. *)
Definition lifetime_below (token_renew_at : Z) (e utcnow : datetime) : Prop :=
  total_seconds_lt e utcnow token_renew_at.

(** ** The [tokens] table

    Rows in insertion order.  The schema declares [id] the primary key
    and [namespace], [repository] and [token] each [unique=True]; the
    database refuses an INSERT or UPDATE that breaks one of them
    ([IntegrityError]).  NULL tokens never collide. *)

Definition table := list Token.

Definition opt_eqb {A} (eqb : A -> A -> bool) (a b : option A) : bool :=
  match a, b with
  | Some x, Some y => eqb x y
  | None, None => true
  | _, _ => false
  end.

(** The filter of [filter_by(namespace=..., repository=...)]. *)
Definition filter_by (ns repo : string) (r : Token) : bool :=
  String.eqb (namespace r) ns && String.eqb (repository r) repo.

(** [Token.query.filter_by(...).first()] *)
Definition query_first (ns repo : string) (db : table) : option Token :=
  find (filter_by ns repo) db.

(** The key the database gives to an inserted row: above all keys in use. *)
Definition next_id (db : table) : Z :=
  1 + fold_right (fun r m => match id r with Some i => Z.max i m | None => m end) 0 db.

(** Does [r] collide with the values [ns], [repo], [tok] of another row? *)
Definition clashes (ns repo : string) (tok : option string) (r : Token) : bool :=
  String.eqb (namespace r) ns
  || String.eqb (repository r) repo
  || match tok with
     | Some t => opt_eqb String.eqb (token r) (Some t)
     | None => false
     end.

(** INSERT of a pending object; [None] is [IntegrityError]. *)
Definition insert_row (t : Token) (db : table) : option table :=
  if existsb (clashes (namespace t) (repository t) (token t)) db
  then None
  else Some (db ++ [{| id := Some (next_id db);
                       namespace := namespace t;
                       repository := repository t;
                       token := token t;
                       expires_at := expires_at t |}]).

(** The row after [UPDATE tokens SET token=?, expires_at=? WHERE id=?]. *)
Definition set_columns (t : Token) (r : Token) : Token :=
  if opt_eqb Z.eqb (id r) (id t)
  then {| id := id r; namespace := namespace r; repository := repository r;
          token := token t; expires_at := expires_at t |}
  else r.

Definition token_taken (t : Token) (r : Token) : bool :=
  negb (opt_eqb Z.eqb (id r) (id t))
  && match token t with
     | Some s => opt_eqb String.eqb (token r) (Some s)
     | None => false
     end.

(** UPDATE of a modified persistent object; [None] is [IntegrityError]. *)
Definition update_row (t : Token) (db : table) : option table :=
  if existsb (token_taken t) db then None
  else Some (map (set_columns t) db).

(** ** The session of one request

    Flask-SQLAlchemy gives every request a session of its own and
    discards it, uncommitted changes included, when the request ends.
    The handler keeps one object in it. *)

Record Session := mkSession
  { obj : Token;
    pending : bool;     (* added with [db.session.add], not yet inserted *)
    modified : bool }.  (* an attribute was assigned since it was loaded *)

(** [db.session.commit()]: flush what the session holds. *)
Definition commit (s : Session) (db : table) : option table :=
  if pending s then insert_row (obj s) db
  else if modified s then update_row (obj s) db
  else Some db.

(** ** The GitHub integration

    [github_integration] is an object of PyGithub; the handler calls it
    twice.  Its answers may depend on everything asked so far, so both
    calls take the history of earlier calls.  Both are taken to return;
    [get_access_token] returns a token string and an expiry. *)

Inductive gh_call :=
| GetInstallation (ns repo : string)
| GetAccessToken (inst_id : Z).

(** The [id] attribute of an installation: an [int], [None], or an
    attribute object whose [value] is read. *)
Inductive inst_id_attr :=
| IdInt (n : Z)
| IdNone
| IdAttr (value : option Z).

(** [inst_id if isinstance(inst_id, int) or inst_id is None else inst_id.value] *)
Definition unwrap_inst_id (a : inst_id_attr) : option Z :=
  match a with
  | IdInt n => Some n
  | IdNone => None
  | IdAttr v => v
  end.

(** [not inst_id]: [None] and [0] are falsy. *)
Definition py_not (i : option Z) : bool :=
  match i with
  | None => true
  | Some n => n =? 0
  end.

Record GithubIntegration := mkGithubIntegration
  { get_installation : list gh_call -> string -> string -> inst_id_attr;
    get_access_token : list gh_call -> Z -> string * datetime }.

(** ** Responses *)

Inductive json := JNull | JStr (s : string).

Definition json_of (o : option string) : json :=
  match o with Some s => JStr s | None => JNull end.

(** A [dict] literal: its items in the order written. *)
Definition dict := list (string * json).

(** What [AccessToken.get] hands back to flask-restx. *)
Inductive outcome :=
| ReturnDict (body : dict)                  (* return {...} *)
| ReturnDictCode (body : dict) (code : Z)   (* return {...}, code *)
| RaiseIntegrityError.                      (* commit() raised *)

(** The status flask-restx answers with: 200 unless the handler gives a
    code, 500 for an unhandled exception. *)
Definition status (o : outcome) : Z :=
  match o with
  | ReturnDict _ => 200
  | ReturnDictCode _ code => code
  | RaiseIntegrityError => 500
  end.

Definition body (o : outcome) : dict :=
  match o with
  | ReturnDict b => b
  | ReturnDictCode b _ => b
  | RaiseIntegrityError => []
  end.


Fixpoint dict_get (d : dict) (k : string) : option json :=
  match d with
  | [] => None
  | (k', v) :: rest => if String.eqb k' k then Some v else dict_get rest k
  end.

(** ** The world a request runs in *)

Record World := mkWorld
  { tokens : table;            (* committed rows *)
    gh_calls : list gh_call }. (* calls made to the integration, oldest first *)

(** ** [get_token] and [AccessToken.get] *)

Section Handler.

(** The two module globals set by [create_app]. *)
Variable github_integration : GithubIntegration.
Variable token_renew_at : Z.

(** The message of [AppNotInstalledError]. *)
Definition not_installed_message (ns repo : string) : string :=
  ("App is not installed on " ++ ns ++ "/" ++ repo)%string.

(** [get_token(namespace, repository)]: [inl] is the raised
    [AppNotInstalledError], [inr] the returned pair. *)
Definition get_token (ns repo : string) (calls : list gh_call)
    : (string + string * datetime) * list gh_call :=
  let inst_id :=
    unwrap_inst_id (get_installation github_integration calls ns repo) in
  let calls := calls ++ [GetInstallation ns repo] in
  if py_not inst_id then (inl (not_installed_message ns repo), calls)
  else
    match inst_id with
    | Some i =>
        (inr (get_access_token github_integration calls i),
         calls ++ [GetAccessToken i])
    | None => (inl (not_installed_message ns repo), calls)  (* [None] is falsy *)
    end.

(** Lines 82-88: the row for the key, or a fresh object added to the
    session. *)
Definition get_or_create (ns repo : string) (db : table) : Session :=
  match query_first ns repo db with
  | Some t => {| obj := t; pending := false; modified := false |}
  | None => {| obj := new_Token ns repo; pending := true; modified := false |}
  end.

(** [token.token, token.expires_at = tok, exp] *)
Definition assign (s : Session) (tok : string) (exp : datetime) : Session :=
  {| obj := {| id := id (obj s);
               namespace := namespace (obj s);
               repository := repository (obj s);
               token := Some tok;
               expires_at := Some exp |};
     pending := pending s;
     modified := true |}.

Definition error_body (err : string) : dict :=
  [("error", JStr ("Failed to retrieve a token: " ++ err)%string)].

Definition success_body (ns repo : string) (s : Session) : dict :=
  [("repository", JStr repo);
   ("namespace", JStr ns);
   ("access_token", json_of (token (obj s)))].

(** Lines 98-105: commit and answer. *)
Definition finish (s : Session) (ns repo : string) (w : World)
    : outcome * World :=
  match commit s (tokens w) with
  | None => (RaiseIntegrityError, w)
  | Some db =>
      (ReturnDict (success_body ns repo s),
       {| tokens := db; gh_calls := gh_calls w |})
  end.

(** Lines 91-96, then on to the commit. *)
Definition renew (s : Session) (ns repo : string) (w : World)
    : (outcome + Session) * World :=
  match get_token ns repo (gh_calls w) with
  | (inl err, calls) =>
      (inl (ReturnDictCode (error_body err) 400),
       {| tokens := tokens w; gh_calls := calls |})
  | (inr (tok, exp), calls) =>
      (inr (assign s tok exp),
       {| tokens := tokens w; gh_calls := calls |})
  end.

(** [AccessToken.get], run without interruption; [utcnow] is what the
    clock shows when [is_expired] reads it. *)
Definition get (utcnow : datetime) (ns repo : string) (w : World)
    : outcome * World :=
  let s := get_or_create ns repo (tokens w) in
  if is_expired token_renew_at (obj s) utcnow then
    match renew s ns repo w with
    | (inl o, w') => (o, w')
    | (inr s', w') => finish s' ns repo w'
    end
  else finish s ns repo w.

(** Is the integration installed, as [get_token] would find it now? *)
Definition installed_at (w : World) (ns repo : string) : bool :=
  negb (py_not (unwrap_inst_id (get_installation github_integration (gh_calls w) ns repo))).

(** The three ways through [get]. *)
Inductive path (now : datetime) (ns repo : string) (w : World)
    : outcome * World -> Prop :=
| Cached :
    is_expired token_renew_at (obj (get_or_create ns repo (tokens w))) now = false ->
    path now ns repo w
      (finish (get_or_create ns repo (tokens w)) ns repo w)
| Refused :
    is_expired token_renew_at (obj (get_or_create ns repo (tokens w))) now = true ->
    installed_at w ns repo = false ->
    path now ns repo w
      (ReturnDictCode (error_body (not_installed_message ns repo)) 400,
       {| tokens := tokens w;
          gh_calls := gh_calls w ++ [GetInstallation ns repo] |})
| Renewed i tok exp :
    is_expired token_renew_at (obj (get_or_create ns repo (tokens w))) now = true ->
    installed_at w ns repo = true ->
    unwrap_inst_id (get_installation github_integration (gh_calls w) ns repo) = Some i ->
    get_access_token github_integration (gh_calls w ++ [GetInstallation ns repo]) i
    = (tok, exp) ->
    path now ns repo w
      (finish (assign (get_or_create ns repo (tokens w)) tok exp) ns repo
         {| tokens := tokens w;
            gh_calls := (gh_calls w ++ [GetInstallation ns repo])
                          ++ [GetAccessToken i] |}).

(** *** Requests one after the other *)

Record request := mkRequest
  { at_time : datetime; req_namespace : string; req_repository : string }.

Definition serve_one (r : request) (w : World) : World :=
  snd (get (at_time r) (req_namespace r) (req_repository r) w).

Fixpoint serve (reqs : list request) (w : World) : World :=
  match reqs with
  | [] => w
  | r :: rest => serve rest (serve_one r w)
  end.

(** *** Requests in flight together

    The handler takes no lock.  A request touches the shared world at
    the query (line 82), at each of the two calls to GitHub (lines 67
    and 71), at the commit (line 98) and when it reads [token.token]
    for its answer (line 104): the commit has expired the object, so
    the attribute is read back from the table by primary key.  Between
    two of these any other request may run. *)

Inductive thread :=
| AtQuery (utcnow : datetime) (ns repo : string)  (* before line 82 *)
| AtRenew (s : Session) (ns repo : string)        (* line 92, [is_expired()] was true *)
| AtIssue (s : Session) (inst_id : Z) (ns repo : string)  (* before line 71 *)
| AtCommit (s : Session) (ns repo : string)       (* before line 98 *)
| AtReturn (row : option Z) (ns repo : string)    (* after line 98, before line 104 *)
| Finished (o : outcome)
| Gone.  (* the row to read back is not there: [ObjectDeletedError] *)

(** [WHERE tokens.id = ?] *)
Definition has_id (row : option Z) (r : Token) : bool :=
  opt_eqb Z.eqb (id r) row.

(** The read of an expired object: its row, by primary key. *)
Definition refresh (row : option Z) (db : table) : option Token :=
  find (has_id row) db.

(** The primary key of the session's object once [commit] has flushed
    it: the key the INSERT gave, or the one it was loaded with. *)
Definition committed_id (s : Session) (db : table) : option Z :=
  if pending s then Some (next_id db) else id (obj s).

Definition step (t : thread) (w : World) : thread * World :=
  match t with
  | AtQuery utcnow ns repo =>
      let s := get_or_create ns repo (tokens w) in
      if is_expired token_renew_at (obj s) utcnow
      then (AtRenew s ns repo, w)
      else (AtCommit s ns repo, w)
  | AtRenew s ns repo =>
      let inst_id :=
        unwrap_inst_id
          (get_installation github_integration (gh_calls w) ns repo) in
      let w' := {| tokens := tokens w;
                   gh_calls := gh_calls w ++ [GetInstallation ns repo] |} in
      if py_not inst_id
      then (Finished (ReturnDictCode
                        (error_body (not_installed_message ns repo)) 400), w')
      else
        match inst_id with
        | Some i => (AtIssue s i ns repo, w')
        | None =>
            (Finished (ReturnDictCode
                         (error_body (not_installed_message ns repo)) 400), w')
        end
  | AtIssue s i ns repo =>
      let '(tok, exp) := get_access_token github_integration (gh_calls w) i in
      (AtCommit (assign s tok exp) ns repo,
       {| tokens := tokens w; gh_calls := gh_calls w ++ [GetAccessToken i] |})
  | AtCommit s ns repo =>
      match commit s (tokens w) with
      | None => (Finished RaiseIntegrityError, w)
      | Some db =>
          (AtReturn (committed_id s (tokens w)) ns repo,
           {| tokens := db; gh_calls := gh_calls w |})
      end
  | AtReturn row ns repo =>
      match refresh row (tokens w) with
      | Some r =>
          (Finished (ReturnDict [("repository", JStr repo);
                                 ("namespace", JStr ns);
                                 ("access_token", json_of (token r))]), w)
      | None => (Gone, w)
      end
  | Finished o => (t, w)
  | Gone => (t, w)
  end.

Fixpoint set_nth {A} (i : nat) (x : A) (l : list A) : list A :=
  match l, i with
  | [], _ => []
  | _ :: rest, O => x :: rest
  | y :: rest, S j => y :: set_nth j x rest
  end.

(** Thread [i] takes its next step. *)
Definition sched_step (i : nat) (st : list thread * World)
    : list thread * World :=
  match nth_error (fst st) i with
  | None => st
  | Some t =>
      let '(t', w') := step t (snd st) in (set_nth i t' (fst st), w')
  end.

Fixpoint run_sched (sched : list nat) (st : list thread * World)
    : list thread * World :=
  match sched with
  | [] => st
  | i :: rest => run_sched rest (sched_step i st)
  end.

End Handler.


(** ** What is said about the table and the calls *)

(** The tokens that are not NULL, row by row. *)
Definition non_null_tokens (db : table) : list string :=
  flat_map (fun r => match token r with Some t => [t] | None => [] end) db.

(** The constraints the schema declares. *)
Record schema_ok (db : table) : Prop := mk_schema_ok
  { pk_id : NoDup (map id db);
    unique_namespace : NoDup (map namespace db);
    unique_repository : NoDup (map repository db);
    unique_token : NoDup (non_null_tokens db) }.

(** The rows stored for one (namespace, repository) pair. *)
Definition rows_for (ns repo : string) (db : table) : list Token :=
  filter (filter_by ns repo) db.

(** [token] and [expires_at] are both set or both NULL. *)
Definition in_step (r : Token) : bool :=
  Bool.eqb (is_none (token r)) (is_none (expires_at r)).

Definition is_issue (c : gh_call) : bool :=
  match c with GetAccessToken _ => true | GetInstallation _ _ => false end.

Definition is_lookup (c : gh_call) : bool :=
  match c with GetInstallation _ _ => true | GetAccessToken _ => false end.

(** How often [get_access_token] and [get_installation] were called. *)
Definition issue_count (calls : list gh_call) : nat :=
  List.length (filter is_issue calls).

Definition lookup_count (calls : list gh_call) : nat :=
  List.length (filter is_lookup calls).




(** ** Integrations and worlds used in the examples *)

Definition empty_world : World := {| tokens := []; gh_calls := [] |}.

(** Installed everywhere, always the same token and expiry. *)
Definition fixed_gh (tok : string) (exp : datetime) : GithubIntegration :=
  {| get_installation := fun _ _ _ => IdInt 7;
     get_access_token := fun _ _ => (tok, exp) |}.

(** Installed nowhere. *)
Definition absent_gh : GithubIntegration :=
  {| get_installation := fun _ _ _ => IdNone;
     get_access_token := fun _ _ => ("unused", 0) |}.

(** Installed everywhere, a new token at every call. *)
Definition counting_gh (exp : datetime) : GithubIntegration :=
  {| get_installation := fun _ _ _ => IdInt 7;
     get_access_token := fun calls _ =>
       (match issue_count calls with
        | O => "tok1"
        | S O => "tok2"
        | _ => "tok3"
        end, exp) |}.

Definition stored (i : Z) (ns repo tok : string) (exp : datetime) : Token :=
  {| id := Some i; namespace := ns; repository := repo;
     token := Some tok; expires_at := Some exp |}.

(** *** Requests in flight: what is counted and kept *)

Definition at_query (t : thread) : bool :=
  match t with AtQuery _ _ _ => true | _ => false end.

Definition count_if (b : bool) : nat := if b then 1%nat else 0%nat.








(** An expired record of the key, two requests that arrive together. *)
Definition racing_world : World :=
  {| tokens := [stored 1 "org" "repo" "old" (plus_seconds 0 30)];
     gh_calls := [] |}.

Definition racing_pool : list thread :=
  [AtQuery 0 "org" "repo"; AtQuery 0 "org" "repo"].

Definition racing_gh : GithubIntegration := counting_gh (plus_seconds 0 3600).

(** The scenario: an empty table, GitHub answering "abc" with expiry an
    hour after [T], the threshold at 60 seconds. *)
Definition scenario_gh (T : datetime) : GithubIntegration :=
  fixed_gh "abc" (plus_seconds T 3600).

Definition scenario_get (T now : datetime) (w : World) : outcome * World :=
  get (scenario_gh T) 60 now "org" "repo" w.

(** The world after the first call, at [T]. *)
Definition scenario_w1 (T : datetime) : World :=
  snd (scenario_get T T empty_world).

(** The world after the second call, at [T + 10s]. *)
Definition scenario_w2 (T : datetime) : World :=
  snd (scenario_get T (plus_seconds T 10) (scenario_w1 T)).

Definition abc_body : dict :=
  [("repository", JStr "repo"); ("namespace", JStr "org");
   ("access_token", JStr "abc")].

(** What INSERT and UPDATE never change of a row once it is stored. *)
Definition row_key (r : Token) : option Z * string * string :=
  (id r, namespace r, repository r).

(** Both branches of line 90 and of line 69, as the handler meets them. *)
Definition expired_at (token_renew_at : Z) (w : World) (now : datetime)
    (ns repo : string) : bool :=
  is_expired token_renew_at (obj (get_or_create ns repo (tokens w))) now.

(** The calls one request makes to GitHub, read off lines 90-92 and
    67-71. *)
Definition calls_of_request (gh : GithubIntegration) (token_renew_at : Z)
    (w : World) (now : datetime) (ns repo : string) : list gh_call :=
  if expired_at token_renew_at w now ns repo then
    GetInstallation ns repo
    :: (if installed_at gh w ns repo then
          match unwrap_inst_id (get_installation gh (gh_calls w) ns repo) with
          | Some i => [GetAccessToken i]
          | None => []
          end
        else [])
  else [].

(** What a request in flight carries to its commit: a session with
    nothing to flush, or an object whose token and expiry go together. *)
Definition thread_wf (t : thread) : Prop :=
  match t with
  | AtCommit s _ _ =>
      (pending s = false /\ modified s = false) \/ in_step (obj s) = true
  | _ => True
  end.

(** A table with one record, and a request for another key. *)
Definition one_row_world : World :=
  {| tokens := [stored 1 "org" "repo" "abc" (plus_seconds 0 3600)];
     gh_calls := [] |}.

(** * The renewal policy *)

Section Policy.

Variable token_renew_at : Z.

Lemma is_expired_eval_value (self : Token) (now : datetime) :
  fst (is_expired_eval token_renew_at self now)
  = Some (is_expired token_renew_at self now).
Proof.
  unfold is_expired_eval, is_expired, is_expired_operands, py_or, eval_operand.
  destruct (expires_at self) as [e|]; cbn [is_none]; [|reflexivity].
  destruct (token self) as [t|]; cbn [is_none]; [|reflexivity].
  destruct (_ <? _); reflexivity.
Qed.

Lemma seconds_within_a_day (e now : datetime) :
  0 <= e - now < us_per_day ->
  seconds (sub e now) = (e - now) / us_per_second.
Proof.
  intros H. unfold sub, timedelta_of_us; cbn [seconds].
  rewrite Z.mod_small by exact H. reflexivity.
Qed.

(** X4: as long as the expiry is ahead by less than a day, the policy
    compares the whole remaining lifetime with the threshold. *)
Lemma is_expired_within_a_day (self : Token) (t : string) (e now : datetime) :
  token self = Some t -> expires_at self = Some e ->
  0 <= e - now < us_per_day ->
  is_expired token_renew_at self now = true
  <-> lifetime_below token_renew_at e now.
Proof.
  intros Ht He Hd. unfold is_expired. rewrite He, Ht.
  rewrite (seconds_within_a_day _ _ Hd), Z.ltb_lt.
  unfold lifetime_below, total_seconds_lt, us_per_second.
  split; intros H.
  - destruct (Z_lt_ge_dec (e - now) (token_renew_at * 1000000)) as [L|G];
      [exact L|].
    assert (token_renew_at <= (e - now) / 1000000)
      by (apply Z.div_le_lower_bound; lia).
    lia.
  - apply Z.div_lt_upper_bound; lia.
Qed.

(** The boundary: a remaining lifetime equal to the threshold. *)
Lemma is_expired_at_threshold (self : Token) (t : string) (now : datetime) :
  0 <= token_renew_at < seconds_per_day ->
  token self = Some t ->
  expires_at self = Some (plus_seconds now token_renew_at) ->
  is_expired token_renew_at self now = false.
Proof.
  intros Hth Ht He. unfold is_expired. rewrite He, Ht.
  rewrite seconds_within_a_day.
  - unfold plus_seconds.
    replace (now + token_renew_at * us_per_second - now)
      with (token_renew_at * us_per_second) by ring.
    rewrite Z.div_mul by (unfold us_per_second; lia).
    apply Z.ltb_irrefl.
  - unfold plus_seconds, us_per_day, us_per_second, seconds_per_day in *. lia.
Qed.

(** C1 (the code departs from it): the policy is to report a record
    expired exactly when its remaining lifetime in seconds is below
    the threshold, so a record whose expiry is past is expired.
    [is_expired] reads the [seconds] field of the difference, which
    never is negative: ten seconds after the expiry, with the
    threshold at 60, the remaining lifetime is below the threshold
    and [is_expired] answers [false]. *)
Theorem is_expired_after_expiry (tok : string) (T : datetime) :
  lifetime_below 60 T (plus_seconds T 10)
  /\ seconds (sub T (plus_seconds T 10)) = 86390
  /\ is_expired 60 (stored 1 "org" "repo" tok T) (plus_seconds T 10) = false.
Proof.
  assert (E : seconds (sub T (plus_seconds T 10)) = 86390).
  { unfold sub, plus_seconds, timedelta_of_us; cbn [seconds].
    replace (T - (T + 10 * us_per_second)) with (- (10 * us_per_second)) by ring.
    reflexivity. }
  split; [|split].
  - unfold lifetime_below, total_seconds_lt, plus_seconds, us_per_second. lia.
  - exact E.
  - unfold is_expired, stored; cbn [expires_at token]. rewrite E. reflexivity.
Qed.

(** More than a day ahead is misjudged too: a day and ten seconds
    before the expiry the record counts as expired. *)
Lemma is_expired_a_day_ahead (tok : string) (T : datetime) :
  is_expired 60 (stored 1 "org" "repo" tok (plus_seconds T 86410)) T = true.
Proof.
  unfold is_expired, stored; cbn [expires_at token].
  unfold sub, plus_seconds, timedelta_of_us; cbn [seconds].
  replace (T + 86410 * us_per_second - T) with (86410 * us_per_second) by ring.
  reflexivity.
Qed.

(** C5: a record without [expires_at] or without [token] is expired,
    whatever the clock and the threshold; the operands are evaluated
    in the order written (expiry, token, comparison), the evaluation
    stops at the first true one, and the comparison is evaluated
    exactly when both fields are set. *)
Theorem is_expired_absent_field (self : Token) (now : datetime) :
  expires_at self = None \/ token self = None ->
  is_expired token_renew_at self now = true
  /\ fst (is_expired_eval token_renew_at self now) = Some true
  /\ snd (is_expired_eval token_renew_at self now)
     = (if is_none (expires_at self) then [ExpiresAtIsNone]
        else [ExpiresAtIsNone; TokenIsNone])
  /\ forall self' now',
       In SecondsLtRenewAt (snd (is_expired_eval token_renew_at self' now'))
       <-> expires_at self' <> None /\ token self' <> None.
Proof.
  intros H. repeat split.
  - unfold is_expired.
    destruct (expires_at self); [|reflexivity].
    destruct (token self); [|reflexivity].
    destruct H; discriminate.
  - unfold is_expired_eval, is_expired_operands, py_or, eval_operand.
    destruct (expires_at self); cbn [is_none]; [|reflexivity].
    destruct (token self); cbn [is_none]; [|reflexivity].
    destruct H; discriminate.
  - unfold is_expired_eval, is_expired_operands, py_or, eval_operand.
    destruct (expires_at self); cbn [is_none]; [|reflexivity].
    destruct (token self); cbn [is_none]; [|reflexivity].
    destruct H; discriminate.
  - unfold is_expired_eval, is_expired_operands, py_or, eval_operand in H0.
    destruct (expires_at self'); [discriminate|].
    cbn in H0. destruct H0 as [H0|[]]. discriminate.
  - unfold is_expired_eval, is_expired_operands, py_or, eval_operand in H0.
    destruct (expires_at self'); cbn [is_none] in H0.
    + destruct (token self'); [discriminate|].
      cbn in H0. destruct H0 as [H0|[H0|[]]]; discriminate.
    + cbn in H0. destruct H0 as [H0|[]]. discriminate.
  - intros [He Ht].
    unfold is_expired_eval, is_expired_operands, py_or, eval_operand.
    destruct (expires_at self'); [|congruence].
    destruct (token self'); [|congruence].
    cbn [is_none]. destruct (_ <? _); cbn; auto.
Qed.

End Policy.

(** * The table under INSERT and UPDATE *)

Section TableFacts.

Lemma opt_eqb_Z_eq (a b : option Z) : opt_eqb Z.eqb a b = true <-> a = b.
Proof.
  destruct a, b; cbn; split; intros H; try congruence; try discriminate.
  - apply Z.eqb_eq in H. congruence.
  - injection H as ->. apply Z.eqb_refl.
Qed.

Lemma opt_eqb_string_eq (a b : option string) :
  opt_eqb String.eqb a b = true <-> a = b.
Proof.
  destruct a, b; cbn; split; intros H; try congruence; try discriminate.
  - apply String.eqb_eq in H. congruence.
  - injection H as ->. apply String.eqb_refl.
Qed.

Lemma query_first_some (ns repo : string) (db : table) (t : Token) :
  query_first ns repo db = Some t ->
  In t db /\ namespace t = ns /\ repository t = repo.
Proof.
  unfold query_first. intros H. apply find_some in H as [Hin Hf].
  unfold filter_by in Hf. apply andb_true_iff in Hf as [A B].
  apply String.eqb_eq in A, B. auto.
Qed.

Lemma next_id_above (db : table) (r : Token) (i : Z) :
  In r db -> id r = Some i -> i < next_id db.
Proof.
  unfold next_id. induction db as [|a db IH]; intros Hin Hid; [destruct Hin|].
  cbn [fold_right]. destruct Hin as [->|Hin].
  - rewrite Hid. lia.
  - specialize (IH Hin Hid). destruct (id a); lia.
Qed.

Lemma next_id_fresh (db : table) : ~ In (Some (next_id db)) (map id db).
Proof.
  intros H. apply in_map_iff in H as (r & Hid & Hin).
  pose proof (next_id_above db r (next_id db) Hin Hid). lia.
Qed.

Lemma NoDup_snoc {A} (l : list A) (x : A) :
  NoDup l -> ~ In x l -> NoDup (l ++ [x]).
Proof.
  intros Hl Hx. apply NoDup_app; [exact Hl|repeat constructor; intros []|].
  intros a Ha [<-|[]]. exact (Hx Ha).
Qed.

Lemma in_non_null_tokens (db : table) (s : string) :
  In s (non_null_tokens db) <-> exists r, In r db /\ token r = Some s.
Proof.
  unfold non_null_tokens. rewrite in_flat_map. split.
  - intros (r & Hin & Hs). exists r. split; [exact Hin|].
    destruct (token r); [destruct Hs as [->|[]]; reflexivity|destruct Hs].
  - intros (r & Hin & Ht). exists r. split; [exact Hin|].
    rewrite Ht. left. reflexivity.
Qed.

(** What a refused clash test tells about every stored row. *)
Lemma no_clash (ns repo : string) (tok : option string) (db : table) :
  existsb (clashes ns repo tok) db = false ->
  ~ In ns (map namespace db)
  /\ ~ In repo (map repository db)
  /\ forall s, tok = Some s -> ~ In s (non_null_tokens db).
Proof.
  intros H.
  assert (K : forall r, In r db -> clashes ns repo tok r = false).
  { intros r Hin. destruct (clashes ns repo tok r) eqn:E; [|reflexivity].
    assert (existsb (clashes ns repo tok) db = true)
      by (apply existsb_exists; eauto).
    congruence. }
  repeat split.
  - intros Hin. apply in_map_iff in Hin as (r & Hr & Hin).
    specialize (K r Hin). unfold clashes in K.
    rewrite Hr, String.eqb_refl in K. discriminate.
  - intros Hin. apply in_map_iff in Hin as (r & Hr & Hin).
    specialize (K r Hin). unfold clashes in K.
    rewrite Hr, String.eqb_refl, orb_true_r in K. discriminate.
  - intros s -> Hin. apply in_non_null_tokens in Hin as (r & Hin & Ht).
    specialize (K r Hin). unfold clashes in K.
    rewrite Ht in K. cbn in K. rewrite String.eqb_refl, !orb_true_r in K.
    discriminate.
Qed.

Lemma insert_row_schema (t : Token) (db db' : table) :
  schema_ok db -> insert_row t db = Some db' -> schema_ok db'.
Proof.
  intros [Hid Hns Hrepo Htok]. unfold insert_row.
  destruct (existsb _ db) eqn:E; [discriminate|].
  intros [= <-]. apply no_clash in E as (Nns & Nrepo & Ntok).
  constructor.
  - rewrite map_app. cbn. apply NoDup_snoc; [exact Hid|apply next_id_fresh].
  - rewrite map_app. cbn. apply NoDup_snoc; assumption.
  - rewrite map_app. cbn. apply NoDup_snoc; assumption.
  - unfold non_null_tokens in *. rewrite flat_map_app. cbn.
    destruct (token t) as [s|].
    + cbn. apply NoDup_snoc; [exact Htok|]. apply (Ntok s eq_refl).
    + cbn. rewrite app_nil_r. exact Htok.
Qed.

Lemma set_columns_id (t r : Token) : id (set_columns t r) = id r.
Proof. unfold set_columns. destruct (opt_eqb _ _ _); reflexivity. Qed.

Lemma set_columns_namespace (t r : Token) :
  namespace (set_columns t r) = namespace r.
Proof. unfold set_columns. destruct (opt_eqb _ _ _); reflexivity. Qed.

Lemma set_columns_repository (t r : Token) :
  repository (set_columns t r) = repository r.
Proof. unfold set_columns. destruct (opt_eqb _ _ _); reflexivity. Qed.

Lemma set_columns_filter_by (ns repo : string) (t r : Token) :
  filter_by ns repo (set_columns t r) = filter_by ns repo r.
Proof.
  unfold filter_by.
  rewrite set_columns_namespace, set_columns_repository. reflexivity.
Qed.

(** Rows with another key are left as they are. *)
Lemma set_columns_others (t : Token) (db : table) :
  ~ In (id t) (map id db) -> map (set_columns t) db = db.
Proof.
  induction db as [|r db IH]; intros H; [reflexivity|].
  cbn in *. rewrite IH by tauto. f_equal.
  unfold set_columns. destruct (opt_eqb Z.eqb (id r) (id t)) eqn:E; [|reflexivity].
  apply opt_eqb_Z_eq in E. exfalso. apply H. left. exact E.
Qed.

Lemma update_row_tokens (t : Token) (db : table) :
  NoDup (map id db) ->
  existsb (token_taken t) db = false ->
  NoDup (non_null_tokens db) ->
  NoDup (non_null_tokens (map (set_columns t) db)).
Proof.
  induction db as [|r db IH]; intros Hid Hex Htok; [constructor|].
  cbn [map existsb] in *. apply orb_false_iff in Hex as [Hr Hex].
  inversion Hid as [|? ? Hnotin Hid']; subst.
  change (non_null_tokens (r :: db))
    with ((match token r with Some s => [s] | None => [] end)
            ++ non_null_tokens db) in Htok.
  change (NoDup ((match token (set_columns t r) with
                  | Some s => [s] | None => [] end)
                   ++ non_null_tokens (map (set_columns t) db))).
  pose proof (NoDup_app_remove_l _ _ Htok) as Htail.
  unfold set_columns at 1.
  destruct (opt_eqb Z.eqb (id r) (id t)) eqn:E.
  - apply opt_eqb_Z_eq in E. rewrite E in Hnotin.
    rewrite set_columns_others by exact Hnotin. cbn [token].
    destruct (token t) as [s|] eqn:Et; [|exact Htail].
    cbn. constructor; [|exact Htail].
    intros Hin. apply in_non_null_tokens in Hin as (r' & Hin' & Ht').
    assert (K : token_taken t r' = true).
    { unfold token_taken. rewrite Et, Ht'. cbn.
      rewrite String.eqb_refl, andb_true_r.
      destruct (opt_eqb Z.eqb (id r') (id t)) eqn:E'; [|reflexivity].
      apply opt_eqb_Z_eq in E'. exfalso. apply Hnotin.
      rewrite <- E'. apply in_map. exact Hin'. }
    assert (existsb (token_taken t) db = true)
      by (apply existsb_exists; eauto).
    congruence.
  - specialize (IH Hid' Hex Htail).
    destruct (token r) as [s|] eqn:Er; [|exact IH].
    cbn. constructor; [|exact IH].
    intros Hin. apply in_non_null_tokens in Hin as (r' & Hin' & Ht').
    apply in_map_iff in Hin' as (r0 & <- & Hin0).
    unfold set_columns in Ht'.
    destruct (opt_eqb Z.eqb (id r0) (id t)) eqn:E0.
    + cbn in Ht'. unfold token_taken in Hr.
      rewrite E, Ht' in Hr. cbn in Hr. rewrite Er in Hr. cbn in Hr.
      rewrite String.eqb_refl in Hr. discriminate.
    + cbn in Htok. inversion Htok as [|? ? Hn _]; subst.
      apply Hn. apply in_non_null_tokens. eauto.
Qed.

Lemma update_row_schema (t : Token) (db db' : table) :
  schema_ok db -> update_row t db = Some db' -> schema_ok db'.
Proof.
  intros [Hid Hns Hrepo Htok]. unfold update_row.
  destruct (existsb _ db) eqn:E; [discriminate|].
  intros [= <-]. constructor.
  - rewrite map_map.
    rewrite (map_ext _ id) by (intros; apply set_columns_id). exact Hid.
  - rewrite map_map.
    rewrite (map_ext _ namespace) by (intros; apply set_columns_namespace).
    exact Hns.
  - rewrite map_map.
    rewrite (map_ext _ repository) by (intros; apply set_columns_repository).
    exact Hrepo.
  - apply update_row_tokens; assumption.
Qed.

Lemma commit_schema (s : Session) (db db' : table) :
  schema_ok db -> commit s db = Some db' -> schema_ok db'.
Proof.
  intros Hok. unfold commit.
  destruct (pending s); [apply insert_row_schema; exact Hok|].
  destruct (modified s); [apply update_row_schema; exact Hok|].
  intros [= <-]. exact Hok.
Qed.

End TableFacts.

(** * The handler, one request at a time *)

Section HandlerFacts.

Variable gh : GithubIntegration.
Variable token_renew_at : Z.

Local Abbreviation expired := (is_expired token_renew_at).

Lemma get_token_not_installed (ns repo : string) (calls : list gh_call) :
  py_not (unwrap_inst_id (get_installation gh calls ns repo)) = true ->
  get_token gh ns repo calls
  = (inl (not_installed_message ns repo), calls ++ [GetInstallation ns repo]).
Proof. unfold get_token. intros ->. reflexivity. Qed.

Lemma get_token_installed (ns repo : string) (calls : list gh_call) :
  py_not (unwrap_inst_id (get_installation gh calls ns repo)) = false ->
  exists i,
    unwrap_inst_id (get_installation gh calls ns repo) = Some i
    /\ get_token gh ns repo calls
       = (inr (get_access_token gh (calls ++ [GetInstallation ns repo]) i),
          (calls ++ [GetInstallation ns repo]) ++ [GetAccessToken i]).
Proof.
  unfold get_token. intros H. rewrite H.
  destruct (unwrap_inst_id _) as [i|]; [|discriminate].
  exists i. split; reflexivity.
Qed.

Lemma get_path (now : datetime) (ns repo : string) (w : World) :
  path gh token_renew_at now ns repo w (get gh token_renew_at now ns repo w).
Proof.
  unfold get.
  destruct (expired _ now) eqn:E; [|apply Cached; exact E].
  unfold renew.
  destruct (py_not (unwrap_inst_id (get_installation gh (gh_calls w) ns repo)))
    eqn:P.
  - rewrite (get_token_not_installed _ _ _ P).
    apply Refused; [exact E|]. unfold installed_at. rewrite P. reflexivity.
  - destruct (get_token_installed _ _ _ P) as (i & Hi & ->).
    destruct (get_access_token gh _ i) as [tok exp] eqn:G.
    apply (Renewed gh token_renew_at now ns repo w i tok exp); auto.
    unfold installed_at. rewrite P. reflexivity.
Qed.

Lemma get_or_create_found (ns repo : string) (db : table) (t : Token) :
  query_first ns repo db = Some t ->
  get_or_create ns repo db
  = {| obj := t; pending := false; modified := false |}.
Proof. unfold get_or_create. intros ->. reflexivity. Qed.

Lemma get_or_create_key (ns repo : string) (db : table) :
  namespace (obj (get_or_create ns repo db)) = ns
  /\ repository (obj (get_or_create ns repo db)) = repo.
Proof.
  unfold get_or_create. destruct (query_first ns repo db) as [t|] eqn:Q.
  - apply query_first_some in Q as (_ & A & B). auto.
  - auto.
Qed.

(** A session that was just opened has nothing to flush unless its
    object is new, and a new object is expired. *)
Lemma get_or_create_clean (ns repo : string) (db : table) (now : datetime) :
  expired (obj (get_or_create ns repo db)) now = false ->
  pending (get_or_create ns repo db) = false
  /\ modified (get_or_create ns repo db) = false.
Proof.
  unfold get_or_create. destruct (query_first ns repo db); cbn; auto.
Qed.

Lemma finish_cached (ns repo : string) (w : World) (now : datetime) :
  expired (obj (get_or_create ns repo (tokens w))) now = false ->
  finish (get_or_create ns repo (tokens w)) ns repo w
  = (ReturnDict (success_body ns repo (get_or_create ns repo (tokens w))), w).
Proof.
  intros H. destruct (get_or_create_clean _ _ _ _ H) as [P M].
  unfold finish, commit. rewrite P, M. destruct w; reflexivity.
Qed.

Lemma finish_tokens_schema (s : Session) (ns repo : string) (w : World) :
  schema_ok (tokens w) -> schema_ok (tokens (snd (finish s ns repo w))).
Proof.
  intros H. unfold finish. destruct (commit s (tokens w)) eqn:C; cbn.
  - exact (commit_schema _ _ _ H C).
  - exact H.
Qed.

Lemma get_schema (now : datetime) (ns repo : string) (w : World) :
  schema_ok (tokens w) -> schema_ok (tokens (snd (get gh token_renew_at now ns repo w))).
Proof.
  intros H. destruct (get_path now ns repo w).
  - apply finish_tokens_schema. exact H.
  - exact H.
  - apply finish_tokens_schema. exact H.
Qed.

Lemma serve_schema (reqs : list request) (w : World) :
  schema_ok (tokens w) -> schema_ok (tokens (serve gh token_renew_at reqs w)).
Proof.
  revert w. induction reqs as [|r reqs IH]; intros w H; [exact H|].
  cbn. apply IH. apply get_schema. exact H.
Qed.

Lemma not_expired_has_token (r : Token) (now : datetime) :
  expired r now = false -> exists t, token r = Some t.
Proof.
  unfold is_expired. destruct (expires_at r); [|discriminate].
  destruct (token r) as [t|]; [|discriminate]. intros _. exists t. reflexivity.
Qed.

Lemma finish_outcome (s : Session) (ns repo : string) (w : World) :
  (fst (finish s ns repo w) = ReturnDict (success_body ns repo s)
   /\ exists db, commit s (tokens w) = Some db
                 /\ snd (finish s ns repo w)
                    = {| tokens := db; gh_calls := gh_calls w |})
  \/ (fst (finish s ns repo w) = RaiseIntegrityError
      /\ commit s (tokens w) = None
      /\ snd (finish s ns repo w) = w).
Proof.
  unfold finish. destruct (commit s (tokens w)) as [db|]; cbn.
  - left. split; [reflexivity|]. exists db. auto.
  - right. auto.
Qed.

Lemma finish_gh_calls (s : Session) (ns repo : string) (w : World) :
  gh_calls (snd (finish s ns repo w)) = gh_calls w.
Proof. unfold finish. destruct (commit s (tokens w)); reflexivity. Qed.

Lemma issue_count_app (a b : list gh_call) :
  issue_count (a ++ b) = (issue_count a + issue_count b)%nat.
Proof. unfold issue_count. rewrite filter_app, length_app. reflexivity. Qed.

Lemma lookup_count_app (a b : list gh_call) :
  lookup_count (a ++ b) = (lookup_count a + lookup_count b)%nat.
Proof. unfold lookup_count. rewrite filter_app, length_app. reflexivity. Qed.

(** A record that is not expired is served without a word to GitHub
    and without a write. *)
Lemma get_cached (now : datetime) (ns repo : string) (w : World) :
  expired (obj (get_or_create ns repo (tokens w))) now = false ->
  get gh token_renew_at now ns repo w
  = (ReturnDict (success_body ns repo (get_or_create ns repo (tokens w))), w).
Proof.
  intros H. unfold get. rewrite H. apply (finish_cached _ _ _ _ H).
Qed.



(** C10: a 200 answer carries a token that is not null.  It is either
    the stored token of a record that is not expired, and such a record
    has one, or the token just assigned from [get_token]. *)
Theorem success_has_token (now : datetime) (ns repo : string) (w : World) :
  status (fst (get gh token_renew_at now ns repo w)) = 200 ->
  exists t,
    dict_get (body (fst (get gh token_renew_at now ns repo w))) "access_token" = Some (JStr t).
Proof.
  destruct (get_path now ns repo w) as [He|He Hi|i tok exp He Hi Hu Hg].
  - rewrite (finish_cached _ _ _ _ He). cbn. intros _.
    destruct (not_expired_has_token _ _ He) as [t ->]. exists t. reflexivity.
  - cbn. discriminate.
  - match goal with |- context [finish ?s ns repo ?w'] =>
      destruct (finish_outcome s ns repo w') as [[-> _]|[-> _]]
    end; cbn; [|discriminate].
    intros _. exists tok. reflexivity.
Qed.

(** ** Token and expiry go together *)

Lemma insert_row_in_step (t : Token) (db db' : table) :
  Forall (fun r => in_step r = true) db ->
  in_step t = true ->
  insert_row t db = Some db' ->
  Forall (fun r => in_step r = true) db'.
Proof.
  intros Hdb Ht. unfold insert_row. destruct (existsb _ db); [discriminate|].
  intros [= <-]. apply Forall_app. split; [exact Hdb|].
  constructor; [exact Ht|constructor].
Qed.

Lemma update_row_in_step (t : Token) (db db' : table) :
  Forall (fun r => in_step r = true) db ->
  in_step t = true ->
  update_row t db = Some db' ->
  Forall (fun r => in_step r = true) db'.
Proof.
  intros Hdb Ht. unfold update_row. destruct (existsb _ db); [discriminate|].
  intros [= <-]. induction Hdb as [|r db Hr Hdb IH]; [constructor|].
  cbn [map]. constructor; [|exact IH].
  unfold set_columns. destruct (opt_eqb _ _ _); [exact Ht|exact Hr].
Qed.

Lemma commit_in_step (s : Session) (db db' : table) :
  Forall (fun r => in_step r = true) db ->
  (pending s = false -> modified s = false \/ in_step (obj s) = true) ->
  (pending s = true -> in_step (obj s) = true) ->
  commit s db = Some db' ->
  Forall (fun r => in_step r = true) db'.
Proof.
  intros Hdb Hm Hp. unfold commit. destruct (pending s).
  - apply insert_row_in_step; auto.
  - destruct (modified s).
    + apply update_row_in_step; [exact Hdb|].
      destruct (Hm eq_refl) as [?|?]; [discriminate|assumption].
    + intros [= <-]. exact Hdb.
Qed.

Lemma finish_in_step (s : Session) (ns repo : string) (w : World) :
  Forall (fun r => in_step r = true) (tokens w) ->
  (pending s = false -> modified s = false \/ in_step (obj s) = true) ->
  (pending s = true -> in_step (obj s) = true) ->
  Forall (fun r => in_step r = true) (tokens (snd (finish s ns repo w))).
Proof.
  intros Hdb Hm Hp. unfold finish.
  destruct (commit s (tokens w)) eqn:C; cbn; [|exact Hdb].
  exact (commit_in_step _ _ _ Hdb Hm Hp C).
Qed.

Lemma get_in_step (now : datetime) (ns repo : string) (w : World) :
  Forall (fun r => in_step r = true) (tokens w) ->
  Forall (fun r => in_step r = true)
    (tokens (snd (get gh token_renew_at now ns repo w))).
Proof.
  intros Hdb.
  destruct (get_path now ns repo w) as [He|He Hi|i tok exp He Hi Hu Hg].
  - rewrite (finish_cached _ _ _ _ He). exact Hdb.
  - exact Hdb.
  - apply finish_in_step; cbn; auto.
Qed.

(** C8: serving requests keeps every stored record with [token] and
    [expires_at] both set or both NULL, so none has a token without an
    expiry; a renewal assigns both fields before anything is written,
    and a request that writes nothing leaves the table as it was. *)
Theorem token_and_expiry_together (reqs : list request) (w : World) :
  Forall (fun r => in_step r = true) (tokens w) ->
  Forall (fun r => in_step r = true)
    (tokens (serve gh token_renew_at reqs w))
  /\ (forall r, In r (tokens (serve gh token_renew_at reqs w)) ->
        token r <> None -> expires_at r <> None)
  /\ (forall s tok exp,
        token (obj (assign s tok exp)) = Some tok
        /\ expires_at (obj (assign s tok exp)) = Some exp).
Proof.
  intros Hdb.
  assert (K : Forall (fun r => in_step r = true)
                (tokens (serve gh token_renew_at reqs w))).
  { revert w Hdb. induction reqs as [|q reqs IH]; intros w Hdb; [exact Hdb|].
    cbn [serve]. apply IH. unfold serve_one. apply get_in_step. exact Hdb. }
  split; [exact K|]. split.
  - intros r Hin Ht He. rewrite Forall_forall in K. specialize (K r Hin).
    unfold in_step in K. rewrite He in K.
    destruct (token r); [discriminate|]. apply Ht. reflexivity.
  - intros s tok exp. split; reflexivity.
Qed.

(** ** One record per key *)

Lemma rows_for_absent (ns repo : string) (db : table) :
  ~ In ns (map namespace db) -> rows_for ns repo db = [].
Proof.
  unfold rows_for. induction db as [|r db IH]; intros H; [reflexivity|].
  cbn in *. unfold filter_by at 1.
  destruct (String.eqb (namespace r) ns) eqn:E.
  - apply String.eqb_eq in E. exfalso. apply H. left. exact E.
  - cbn. apply IH. tauto.
Qed.

Lemma rows_for_at_most_one (ns repo : string) (db : table) :
  NoDup (map namespace db) -> (List.length (rows_for ns repo db) <= 1)%nat.
Proof.
  induction db as [|r db IH]; intros H; [cbn; lia|].
  cbn in H. inversion H as [|? ? Hn Hd]; subst.
  unfold rows_for. cbn [filter]. destruct (filter_by ns repo r) eqn:E.
  - unfold filter_by in E. apply andb_true_iff in E as [E _].
    apply String.eqb_eq in E. rewrite E in Hn.
    fold (rows_for ns repo db). rewrite (rows_for_absent _ _ _ Hn). cbn. lia.
  - apply IH. exact Hd.
Qed.

Lemma query_first_rows_for (ns repo : string) (db : table) (r : Token) :
  query_first ns repo db = Some r ->
  exists rest, rows_for ns repo db = r :: rest.
Proof.
  unfold query_first, rows_for. induction db as [|a db IH]; [discriminate|].
  cbn. destruct (filter_by ns repo a).
  - intros [= ->]. eauto.
  - exact IH.
Qed.

Lemma query_first_found (ns repo : string) (db : table) (r : Token) :
  In r db -> filter_by ns repo r = true -> query_first ns repo db <> None.
Proof.
  intros Hin Hf Hnone. unfold query_first in Hnone.
  pose proof (find_none _ _ Hnone r Hin). congruence.
Qed.

(** After a commit the row of the session's object is in the table. *)
Lemma commit_stores (s : Session) (ns repo : string) (db db' : table) :
  filter_by ns repo (obj s) = true ->
  (pending s = false -> In (obj s) db \/ query_first ns repo db <> None) ->
  commit s db = Some db' ->
  query_first ns repo db' <> None.
Proof.
  intros Hk Hold. unfold commit. destruct (pending s).
  - unfold insert_row. destruct (existsb _ db); [discriminate|].
    intros [= <-].
    eapply query_first_found; [apply in_or_app; right; left; reflexivity|].
    exact Hk.
  - assert (Q : query_first ns repo db <> None).
    { destruct (Hold eq_refl) as [Hin|Q]; [|exact Q].
      exact (query_first_found _ _ _ _ Hin Hk). }
    destruct (modified s).
    + unfold update_row. destruct (existsb _ db); [discriminate|].
      intros [= <-].
      destruct (query_first ns repo db) as [r|] eqn:F; [|congruence].
      unfold query_first in F. apply find_some in F as [Hin Hf].
      eapply query_first_found; [apply in_map; exact Hin|].
      rewrite set_columns_filter_by. exact Hf.
    + intros [= <-]. exact Q.
Qed.

Lemma get_or_create_filter_by (ns repo : string) (db : table) :
  filter_by ns repo (obj (get_or_create ns repo db)) = true.
Proof.
  destruct (get_or_create_key ns repo db) as [A B].
  unfold filter_by. rewrite A, B, !String.eqb_refl. reflexivity.
Qed.

Lemma get_or_create_old (ns repo : string) (db : table) :
  pending (get_or_create ns repo db) = false ->
  In (obj (get_or_create ns repo db)) db.
Proof.
  unfold get_or_create. destruct (query_first ns repo db) as [t|] eqn:Q.
  - intros _. apply query_first_some in Q. tauto.
  - discriminate.
Qed.

(** A request answered 200 leaves the record of its key in the table. *)
Lemma get_stores (now : datetime) (ns repo : string) (w : World) :
  status (fst (get gh token_renew_at now ns repo w)) = 200 ->
  query_first ns repo (tokens (snd (get gh token_renew_at now ns repo w)))
  <> None.
Proof.
  destruct (get_path now ns repo w) as [He|He Hi|i tok exp He Hi Hu Hg].
  - rewrite (finish_cached _ _ _ _ He). cbn. intros _.
    destruct (get_or_create_clean _ _ _ _ He) as [P _].
    exact (query_first_found _ _ _ _ (get_or_create_old _ _ _ P)
             (get_or_create_filter_by ns repo (tokens w))).
  - cbn. discriminate.
  - match goal with |- context [finish ?s ns repo ?w'] =>
      destruct (finish_outcome s ns repo w')
        as [[-> (db & C & ->)]|[-> _]]
    end; cbn; [|discriminate].
    intros _. cbn in C. eapply commit_stores; [| |exact C].
    + pose proof (get_or_create_filter_by ns repo (tokens w)) as F.
      unfold filter_by in *. exact F.
    + cbn. intros P. right.
      exact (query_first_found _ _ _ _ (get_or_create_old _ _ _ P)
               (get_or_create_filter_by ns repo (tokens w))).
Qed.

(** A request for a key that has its record adds no row. *)
Lemma get_existing_length (now : datetime) (ns repo : string) (w : World)
    (r : Token) :
  query_first ns repo (tokens w) = Some r ->
  List.length (tokens (snd (get gh token_renew_at now ns repo w)))
  = List.length (tokens w).
Proof.
  intros Q.
  destruct (get_path now ns repo w) as [He|He Hi|i tok exp He Hi Hu Hg].
  - rewrite (finish_cached _ _ _ _ He). reflexivity.
  - reflexivity.
  - rewrite (get_or_create_found _ _ _ _ Q). unfold finish, commit, assign.
    cbn [pending modified obj tokens]. unfold update_row.
    destruct (existsb _ (tokens w)); cbn; [reflexivity|].
    apply length_map.
Qed.

(** ** The unique columns *)

Lemma NoDup_map_nth {A B} (f : A -> B) (l : list A) (i j : nat) (a b : A) :
  NoDup (map f l) ->
  nth_error l i = Some a -> nth_error l j = Some b -> i <> j ->
  f a <> f b.
Proof.
  intros Hnd Hi Hj Hij Heq. apply Hij.
  apply (proj1 (NoDup_nth_error (map f l)) Hnd).
  - rewrite length_map. apply nth_error_Some. congruence.
  - rewrite !nth_error_map, Hi, Hj. cbn. congruence.
Qed.

Lemma non_null_tokens_nth (db : table) :
  NoDup (non_null_tokens db) ->
  forall (i j : nat) (a b : Token) (t : string),
    nth_error db i = Some a -> nth_error db j = Some b -> i <> j ->
    token a = Some t -> token b <> Some t.
Proof.
  induction db as [|r db IH]; intros Hnd i j a b t Hi Hj Hij Ha Hb.
  - destruct i; discriminate.
  - change (non_null_tokens (r :: db))
      with ((match token r with Some s => [s] | None => [] end)
              ++ non_null_tokens db) in Hnd.
    destruct i as [|i], j as [|j]; cbn in Hi, Hj.
    + congruence.
    + injection Hi as ->. rewrite Ha in Hnd. cbn in Hnd.
      inversion Hnd as [|? ? Hn _]; subst. apply Hn.
      apply in_non_null_tokens. exists b. split; [|exact Hb].
      eapply nth_error_In; eauto.
    + injection Hj as ->. rewrite Hb in Hnd. cbn in Hnd.
      inversion Hnd as [|? ? Hn _]; subst. apply Hn.
      apply in_non_null_tokens. exists a. split; [|exact Ha].
      eapply nth_error_In; eauto.
    + apply NoDup_app_remove_l in Hnd.
      eapply (IH Hnd i j a b t); eauto.
Qed.

(** C9: [namespace], [repository] and [token] are each unique on their
    own.  However many requests are served, two different rows of the
    table differ in namespace, differ in repository, and do not carry
    the same non-NULL token; so two repositories of one namespace are
    never stored together. *)
Theorem columns_unique (reqs : list request) (w : World) (i j : nat)
    (r1 r2 : Token) :
  schema_ok (tokens w) ->
  nth_error (tokens (serve gh token_renew_at reqs w)) i = Some r1 ->
  nth_error (tokens (serve gh token_renew_at reqs w)) j = Some r2 ->
  i <> j ->
  namespace r1 <> namespace r2
  /\ repository r1 <> repository r2
  /\ (forall t, token r1 = Some t -> token r2 <> Some t).
Proof.
  intros Hok H1 H2 Hij.
  destruct (serve_schema reqs w Hok) as [_ Hns Hrepo Htok].
  split; [|split].
  - exact (NoDup_map_nth namespace _ i j r1 r2 Hns H1 H2 Hij).
  - exact (NoDup_map_nth repository _ i j r1 r2 Hrepo H1 H2 Hij).
  - intros t. exact (non_null_tokens_nth _ Htok i j r1 r2 t H1 H2 Hij).
Qed.

(** The INSERT of a second repository under a stored namespace is
    refused. *)
Lemma insert_same_namespace (t r : Token) (db : table) :
  In r db -> namespace r = namespace t -> insert_row t db = None.
Proof.
  intros Hin Hns. unfold insert_row.
  assert (E : existsb (clashes (namespace t) (repository t) (token t)) db = true).
  { apply existsb_exists. exists r. split; [exact Hin|].
    unfold clashes. rewrite Hns, String.eqb_refl. reflexivity. }
  rewrite E. reflexivity.
Qed.

End HandlerFacts.

(** * The scenario of the first hour *)

Section Scenario.

Variable T : datetime.

Lemma seconds_sub_plus (a b : Z) :
  seconds (sub (plus_seconds T a) (plus_seconds T b))
  = seconds (timedelta_of_us ((a - b) * us_per_second)).
Proof.
  unfold sub, plus_seconds. f_equal. f_equal. ring.
Qed.

Lemma is_expired_stored (th : Z) (i : Z) (ns repo tok : string) (a b : Z) :
  is_expired th (stored i ns repo tok (plus_seconds T a)) (plus_seconds T b)
  = (seconds (timedelta_of_us ((a - b) * us_per_second)) <? th).
Proof.
  unfold is_expired, stored; cbn [expires_at token].
  rewrite seconds_sub_plus. reflexivity.
Qed.

Lemma scenario_w1_eq :
  scenario_w1 T
  = {| tokens := [stored 1 "org" "repo" "abc" (plus_seconds T 3600)];
       gh_calls := [GetInstallation "org" "repo"; GetAccessToken 7] |}.
Proof. reflexivity. Qed.

Lemma scenario_lookup :
  get_or_create "org" "repo"
    [stored 1 "org" "repo" "abc" (plus_seconds T 3600)]
  = {| obj := stored 1 "org" "repo" "abc" (plus_seconds T 3600);
       pending := false; modified := false |}.
Proof. reflexivity. Qed.

(** What a call at [T + b] seconds does to the world of the scenario
    once the record is stored: served from the table when the policy
    says so, renewed otherwise. *)
Lemma scenario_later (b : Z) (calls : list gh_call) :
  scenario_get T (plus_seconds T b)
    {| tokens := [stored 1 "org" "repo" "abc" (plus_seconds T 3600)];
       gh_calls := calls |}
  = (ReturnDict abc_body,
     {| tokens := [stored 1 "org" "repo" "abc" (plus_seconds T 3600)];
        gh_calls :=
          if seconds (timedelta_of_us ((3600 - b) * us_per_second)) <? 60
          then (calls ++ [GetInstallation "org" "repo"]) ++ [GetAccessToken 7]
          else calls |}).
Proof.
  unfold scenario_get, get. cbn [tokens]. rewrite scenario_lookup. cbn [obj].
  rewrite is_expired_stored.
  destruct (seconds (timedelta_of_us ((3600 - b) * us_per_second)) <? 60);
    reflexivity.
Qed.

Lemma scenario_w2_eq : scenario_w2 T = scenario_w1 T.
Proof.
  unfold scenario_w2. rewrite scenario_w1_eq, scenario_later. reflexivity.
Qed.

(** Ten seconds after the expiry the lapsed token is served from the
    table and nobody is called. *)
Lemma scenario_after_expiry :
  scenario_get T (plus_seconds T 3610) (scenario_w1 T)
  = (ReturnDict abc_body, scenario_w1 T).
Proof. rewrite scenario_w1_eq, scenario_later. reflexivity. Qed.

(** C4, with the lifetime that is left at [T + 3550]: from the empty
    table the first call, at [T], returns repository "repo", namespace
    "org" and token "abc" after one call to the issuer; the call at
    [T + 10] returns the same token and calls nobody; at [T + 3550] the
    token has 50 seconds left, which is below the threshold of 60, and
    the call asks the issuer again. *)
Theorem scenario_first_hour :
  fst (scenario_get T T empty_world) = ReturnDict abc_body
  /\ issue_count (gh_calls (scenario_w1 T)) = 1%nat
  /\ fst (scenario_get T (plus_seconds T 10) (scenario_w1 T))
     = ReturnDict abc_body
  /\ gh_calls (scenario_w2 T) = gh_calls (scenario_w1 T)
  /\ seconds (sub (plus_seconds T 3600) (plus_seconds T 3550)) = 50
  /\ issue_count
       (gh_calls (snd (scenario_get T (plus_seconds T 3550) (scenario_w2 T))))
     = 2%nat
  /\ fst (scenario_get T (plus_seconds T 3550) (scenario_w2 T))
     = ReturnDict abc_body.
Proof.
  rewrite scenario_w2_eq, scenario_w1_eq, !scenario_later, seconds_sub_plus.
  repeat split.
Qed.

End Scenario.

(** * Requests in flight together *)

Section Interleaving.

Variable gh : GithubIntegration.
Variable token_renew_at : Z.

(** ** Reading a row back by its key *)

Lemma refresh_app (row : option Z) (db extra : table) :
  refresh row (db ++ extra)
  = match refresh row db with
    | Some r => Some r
    | None => refresh row extra
    end.
Proof.
  unfold refresh. induction db as [|a db IH]; [reflexivity|].
  cbn. destruct (has_id row a); [reflexivity|exact IH].
Qed.

Lemma refresh_set_columns (row : option Z) (t : Token) (db : table) :
  refresh row (map (set_columns t) db)
  = option_map (set_columns t) (refresh row db).
Proof.
  unfold refresh. induction db as [|a db IH]; [reflexivity|].
  cbn. unfold has_id at 1. rewrite set_columns_id. fold (has_id row a).
  destruct (has_id row a); [reflexivity|exact IH].
Qed.

Lemma refresh_fresh (db : table) : refresh (Some (next_id db)) db = None.
Proof.
  destruct (refresh (Some (next_id db)) db) as [r|] eqn:F; [|reflexivity].
  unfold refresh in F. apply find_some in F as [Hin Hid].
  apply opt_eqb_Z_eq in Hid. exfalso. apply (next_id_fresh db).
  rewrite <- Hid. apply in_map. exact Hin.
Qed.

Lemma refresh_unique (db : table) (t : Token) :
  NoDup (map id db) -> In t db -> refresh (id t) db = Some t.
Proof.
  unfold refresh. induction db as [|a db IH]; intros Hnd Hin; [destruct Hin|].
  cbn in Hnd. inversion Hnd as [|? ? Hn Hd]; subst. cbn [find].
  destruct Hin as [->|Hin].
  - unfold has_id. rewrite (proj2 (opt_eqb_Z_eq (id t) (id t)) eq_refl).
    reflexivity.
  - destruct (has_id (id t) a) eqn:E; [|exact (IH Hd Hin)].
    apply opt_eqb_Z_eq in E. exfalso. apply Hn. rewrite E.
    apply in_map. exact Hin.
Qed.

(** After the commit of a renewal the row read back has the token
    that was assigned. *)
Lemma commit_refresh (ns repo : string) (db db' : table) (tok : string)
    (exp : datetime) :
  commit (assign (get_or_create ns repo db) tok exp) db = Some db' ->
  exists r,
    refresh (committed_id (assign (get_or_create ns repo db) tok exp) db) db'
    = Some r
    /\ token r = Some tok.
Proof.
  unfold get_or_create. destruct (query_first ns repo db) as [t|] eqn:Q;
    unfold commit, committed_id, assign; cbn [pending modified obj id].
  - unfold update_row. destruct (existsb _ db); [discriminate|].
    intros [= <-]. rewrite refresh_set_columns.
    destruct (refresh (id t) db) as [r|] eqn:F.
    + cbn [option_map]. eexists. split; [reflexivity|].
      unfold refresh in F. apply find_some in F as [_ Hid].
      unfold has_id in Hid. unfold set_columns; cbn [id]. rewrite Hid.
      reflexivity.
    + exfalso. unfold refresh in F. unfold query_first in Q.
      apply find_some in Q as [Hin _].
      pose proof (find_none _ _ F t Hin) as N. unfold has_id in N.
      rewrite (proj2 (opt_eqb_Z_eq (id t) (id t)) eq_refl) in N. discriminate.
  - unfold insert_row. destruct (existsb _ db); [discriminate|].
    intros [= <-]. rewrite refresh_app, refresh_fresh.
    unfold refresh; cbn [find]. unfold has_id; cbn [id].
    rewrite (proj2 (opt_eqb_Z_eq _ _) eq_refl). eexists. split; reflexivity.
Qed.

Lemma sched_step_alone (t : thread) (w : World) :
  sched_step gh token_renew_at 0 ([t], w)
  = ([fst (step gh token_renew_at t w)], snd (step gh token_renew_at t w)).
Proof.
  unfold sched_step. cbn [fst snd nth_error].
  destruct (step gh token_renew_at t w). reflexivity.
Qed.

(** Run alone on a table whose primary key is unique, the five steps
    of a request are [get]: the row read back is the one the session
    has just written or found. *)
Lemma get_as_steps (now : datetime) (ns repo : string) (w : World) :
  NoDup (map id (tokens w)) ->
  run_sched gh token_renew_at [0%nat; 0%nat; 0%nat; 0%nat; 0%nat]
    ([AtQuery now ns repo], w)
  = ([Finished (fst (get gh token_renew_at now ns repo w))],
     snd (get gh token_renew_at now ns repo w)).
Proof.
  intros Hid. destruct w as [db calls]. cbn [tokens] in Hid.
  cbn [run_sched]. rewrite sched_step_alone. unfold get. cbn [step tokens].
  destruct (is_expired token_renew_at (obj (get_or_create ns repo db)) now)
    eqn:E; cbn [fst snd].
  - rewrite sched_step_alone. unfold renew, get_token. cbn [step gh_calls tokens].
    destruct (py_not (unwrap_inst_id (get_installation gh calls ns repo))) eqn:P;
      cbn [fst snd].
    + rewrite !sched_step_alone. reflexivity.
    + destruct (unwrap_inst_id (get_installation gh calls ns repo)) as [i|];
        [|discriminate]. cbn [fst snd].
      rewrite sched_step_alone. cbn [step gh_calls tokens].
      destruct (get_access_token gh (calls ++ [GetInstallation ns repo]) i)
        as [tok exp]. cbn [fst snd].
      rewrite sched_step_alone. unfold finish. cbn [step gh_calls tokens].
      destruct (commit (assign (get_or_create ns repo db) tok exp) db)
        as [db'|] eqn:C; cbn [fst snd].
      * rewrite sched_step_alone. cbn [step tokens].
        destruct (commit_refresh _ _ _ _ _ _ C) as (r & -> & Ht).
        cbn [fst snd].
        unfold success_body. cbn [obj assign token]. rewrite Ht. reflexivity.
      * rewrite !sched_step_alone. reflexivity.
  - destruct (get_or_create_clean _ _ _ _ _ E) as [P M].
    pose proof (get_or_create_old _ _ _ P) as Hin.
    rewrite sched_step_alone. unfold finish, commit, committed_id.
    cbn [step tokens gh_calls]. unfold commit, committed_id. rewrite P, M.
    cbn [fst snd]. rewrite sched_step_alone. cbn [step tokens].
    rewrite (refresh_unique _ _ Hid Hin). cbn [fst snd].
    rewrite !sched_step_alone. reflexivity.
Qed.

(** ** What a schedule keeps *)












Lemma Forall_set_nth {A} (P : A -> Prop) (l : list A) (i : nat) (x : A) :
  Forall P l -> P x -> Forall P (set_nth i x l).
Proof.
  intros Hl Hx. revert i. induction Hl as [|a l Ha Hl IH]; intros i.
  - destruct i; constructor.
  - destruct i; cbn; constructor; auto.
Qed.






End Interleaving.

(** * The theorems at work *)

(** A record that was never issued a token. *)
Lemma is_expired_absent_field_witness :
  is_expired 60 (new_Token "org" "repo") 0 = true.
Proof.
  exact (proj1 (is_expired_absent_field 60 (new_Token "org" "repo") 0
                  (or_introl eq_refl))).
Defined.


(** The first request of the scenario. *)
Lemma success_has_token_witness :
  exists t,
    dict_get (body (fst (scenario_get 0 0 empty_world))) "access_token"
    = Some (JStr t).
Proof.
  exact (success_has_token (scenario_gh 0) 60 0 "org" "repo" empty_world
           eq_refl).
Defined.

(** Two requests from the empty table. *)
Lemma token_and_expiry_together_witness :
  Forall (fun r => in_step r = true)
    (tokens (serve (scenario_gh 0) 60
               [mkRequest 0 "org" "repo"; mkRequest 5 "org" "repo"]
               empty_world)).
Proof.
  exact (proj1 (token_and_expiry_together (scenario_gh 0) 60
                  [mkRequest 0 "org" "repo"; mkRequest 5 "org" "repo"]
                  empty_world (Forall_nil _))).
Defined.

Lemma schema_ok_empty : schema_ok [].
Proof. constructor; constructor. Qed.

(** Two keys stored one after the other. *)
Lemma columns_unique_witness :
  namespace (stored 1 "org" "repo" "tok1" 3600)
  <> namespace (stored 2 "team" "site" "tok2" 3600).
Proof.
  refine (proj1 (columns_unique (counting_gh 3600) 60
                   [mkRequest 0 "org" "repo"; mkRequest 1 "team" "site"]
                   empty_world 0 1
                   (stored 1 "org" "repo" "tok1" 3600)
                   (stored 2 "team" "site" "tok2" 3600)
                   schema_ok_empty eq_refl eq_refl _)).
  discriminate.
Defined.


(** * Where the specification and the handler part *)


(** The same two requests with both commits before either answer:
    each reads the row back after the commit of the other, and both
    answer with the token committed last. *)
Lemma two_requests_last_commit_wins :
  run_sched racing_gh 60 [0; 1; 0; 0; 1; 1; 0; 1; 0; 1]%nat
    (racing_pool, racing_world)
  = ([Finished (ReturnDict [("repository", JStr "repo");
                            ("namespace", JStr "org");
                            ("access_token", JStr "tok2")]);
      Finished (ReturnDict [("repository", JStr "repo");
                            ("namespace", JStr "org");
                            ("access_token", JStr "tok2")])],
     {| tokens := [stored 1 "org" "repo" "tok2" (plus_seconds 0 3600)];
        gh_calls := [GetInstallation "org" "repo"; GetAccessToken 7;
                     GetInstallation "org" "repo"; GetAccessToken 7] |}).
Proof. vm_compute. reflexivity. Qed.

(** Two requests for a key that has no record yet: both call the
    issuer, and the INSERT of the second is refused. *)
Lemma two_requests_new_key :
  run_sched racing_gh 60 [0; 1; 0; 1; 0; 1; 0; 1; 0; 1]%nat
    (racing_pool, empty_world)
  = ([Finished (ReturnDict [("repository", JStr "repo");
                            ("namespace", JStr "org");
                            ("access_token", JStr "tok1")]);
      Finished RaiseIntegrityError],
     {| tokens := [stored 1 "org" "repo" "tok1" (plus_seconds 0 3600)];
        gh_calls := [GetInstallation "org" "repo";
                     GetInstallation "org" "repo";
                     GetAccessToken 7; GetAccessToken 7] |}).
Proof. vm_compute. reflexivity. Qed.

(** C4 as stated fails in its aside: at [T + 3550] the
    token has 50 seconds left, not 60; with 60 seconds left, at
    [T + 3540], the record is not expired and nobody is called. *)
Lemma scenario_sixty_seconds_left :
  seconds (sub (plus_seconds 0 3600) (plus_seconds 0 3550)) = 50
  /\ seconds (sub (plus_seconds 0 3600) (plus_seconds 0 3540)) = 60
  /\ is_expired 60 (stored 1 "org" "repo" "abc" (plus_seconds 0 3600))
       (plus_seconds 0 3540) = false
  /\ gh_calls (snd (scenario_get 0 (plus_seconds 0 3540) (scenario_w2 0)))
     = gh_calls (scenario_w2 0).
Proof. vm_compute. repeat split. Qed.

(** * More on the renewal policy *)

Section PolicyMore.

Variable token_renew_at : Z.

Lemma seconds_range (us : Z) :
  0 <= seconds (timedelta_of_us us) < seconds_per_day.
Proof.
  unfold timedelta_of_us; cbn [seconds].
  assert (B : 0 <= us mod us_per_day < us_per_day)
    by (apply Z.mod_pos_bound; reflexivity).
  split.
  - apply Z.div_pos; [lia|reflexivity].
  - apply Z.div_lt_upper_bound; [reflexivity|].
    assert (us_per_day = us_per_second * seconds_per_day) by reflexivity. lia.
Qed.

(** X1: [is_expired] does not see whole days.  Moving the clock by any
    number of days, forward or back, leaves its answer as it was. *)
Theorem is_expired_day_periodic (self : Token) (now : datetime) (k : Z) :
  is_expired token_renew_at self (plus_seconds now (k * seconds_per_day))
  = is_expired token_renew_at self now.
Proof.
  unfold is_expired. destruct (expires_at self) as [e|]; [|reflexivity].
  destruct (token self); [|reflexivity].
  unfold sub, timedelta_of_us; cbn [seconds]. do 2 f_equal.
  replace (e - plus_seconds now (k * seconds_per_day))
    with ((e - now) + (- k) * us_per_day)
    by (unfold plus_seconds, us_per_day; ring).
  apply Z_mod_plus_full.
Qed.

(** X2: with the threshold at a day or more every record is expired,
    at any time: every request asks GitHub. *)
Theorem is_expired_threshold_a_day (self : Token) (now : datetime) :
  seconds_per_day <= token_renew_at ->
  is_expired token_renew_at self now = true.
Proof.
  intros H. unfold is_expired. destruct (expires_at self) as [e|]; [|reflexivity].
  destruct (token self); [|reflexivity].
  apply Z.ltb_lt. pose proof (seconds_range (e - now)) as R.
  unfold sub. lia.
Qed.

(** X3: with the threshold at zero or below, a record that has its
    token and its expiry is never expired, however long ago the expiry
    was: it is never renewed. *)
Theorem is_expired_threshold_zero (self : Token) (now : datetime) :
  token_renew_at <= 0 ->
  token self <> None -> expires_at self <> None ->
  is_expired token_renew_at self now = false.
Proof.
  intros H Ht He. unfold is_expired.
  destruct (expires_at self) as [e|]; [|congruence].
  destruct (token self); [|congruence].
  apply Z.ltb_ge. pose proof (seconds_range (e - now)) as R.
  unfold sub. lia.
Qed.

(** X5: a token whose expiry is past is served as good.  With both
    fields set and a threshold that is not negative, from just after
    the expiry until a day less the threshold after it [is_expired]
    answers [false]. *)
Theorem is_expired_lapsed (self : Token) (t : string) (e now : datetime) :
  token self = Some t -> expires_at self = Some e ->
  0 <= token_renew_at ->
  0 < now - e <= (seconds_per_day - token_renew_at) * us_per_second ->
  is_expired token_renew_at self now = false.
Proof.
  intros Ht He Hth Hx. unfold is_expired. rewrite He, Ht.
  apply Z.ltb_ge. unfold sub, timedelta_of_us; cbn [seconds].
  assert (D : us_per_day = seconds_per_day * us_per_second) by reflexivity.
  assert (U : us_per_second = 1000000) by reflexivity.
  assert (M : (e - now) mod us_per_day = us_per_day - (now - e)).
  { replace (e - now) with ((us_per_day - (now - e)) + (-1) * us_per_day) by ring.
    rewrite Z_mod_plus_full. apply Z.mod_small. nia. }
  rewrite M. apply Z.div_le_lower_bound; [lia|]. nia.
Qed.

End PolicyMore.

(** * More on the handler *)

Section HandlerMore.

Variable gh : GithubIntegration.
Variable token_renew_at : Z.

Lemma find_app_none {A} (p : A -> bool) (l l' : list A) :
  find p l = None -> find p (l ++ l') = find p l'.
Proof.
  induction l as [|a l IH]; [reflexivity|].
  cbn. destruct (p a); [discriminate|exact IH].
Qed.

Lemma find_map_set_columns (ns repo : string) (t : Token) (db : table) :
  find (filter_by ns repo) (map (set_columns t) db)
  = option_map (set_columns t) (find (filter_by ns repo) db).
Proof.
  induction db as [|r db IH]; [reflexivity|].
  cbn. rewrite set_columns_filter_by.
  destruct (filter_by ns repo r); [reflexivity|exact IH].
Qed.

(** The commit after a renewal leaves the renewed row under the key. *)
Lemma commit_assigned (ns repo : string) (db db' : table) (tok : string)
    (exp : datetime) :
  commit (assign (get_or_create ns repo db) tok exp) db = Some db' ->
  exists r,
    query_first ns repo db' = Some r
    /\ token r = Some tok /\ expires_at r = Some exp.
Proof.
  unfold get_or_create. destruct (query_first ns repo db) as [t|] eqn:Q;
    unfold commit, assign; cbn [pending modified obj].
  - unfold update_row. destruct (existsb _ db); [discriminate|].
    intros [= <-]. unfold query_first in *.
    rewrite find_map_set_columns, Q. cbn [option_map].
    eexists. split; [reflexivity|].
    unfold set_columns; cbn [id].
    rewrite (proj2 (opt_eqb_Z_eq (id t) (id t)) eq_refl). split; reflexivity.
  - unfold insert_row. destruct (existsb _ db); [discriminate|].
    intros [= <-]. unfold query_first in *.
    rewrite (find_app_none _ _ _ Q). cbn [find namespace repository new_Token].
    unfold filter_by; cbn [namespace repository].
    rewrite !String.eqb_refl. cbn.
    eexists. split; [reflexivity|]. split; reflexivity.
Qed.

(** A 200 answer, and the row it was made from. *)
Lemma get_ok_lookup (now : datetime) (ns repo : string) (w : World) :
  status (fst (get gh token_renew_at now ns repo w)) = 200 ->
  exists r,
    query_first ns repo (tokens (snd (get gh token_renew_at now ns repo w)))
    = Some r
    /\ fst (get gh token_renew_at now ns repo w)
       = ReturnDict [("repository", JStr repo); ("namespace", JStr ns);
                     ("access_token", json_of (token r))].
Proof.
  destruct (get_path gh token_renew_at now ns repo w)
    as [He|He Hi|i tok exp He Hi Hu Hg].
  - rewrite (finish_cached _ _ _ _ _ He). cbn [fst snd]. intros _.
    destruct (get_or_create_clean _ _ _ _ _ He) as [P _].
    unfold get_or_create in *.
    destruct (query_first ns repo (tokens w)) as [r|]; [|discriminate].
    exists r. split; reflexivity.
  - cbn. discriminate.
  - match goal with |- context [finish ?s ns repo ?w'] =>
      destruct (finish_outcome s ns repo w')
        as [[-> (db & C & ->)]|[-> _]]
    end; cbn [fst snd status]; [|discriminate].
    intros _. cbn [tokens] in *.
    destruct (commit_assigned _ _ _ _ _ _ C) as (r & Q & Ht & _).
    exists r. split; [exact Q|]. unfold success_body. cbn [obj assign token].
    rewrite Ht. reflexivity.
Qed.

(** The calls of one request. *)
Lemma get_calls (now : datetime) (ns repo : string) (w : World) :
  gh_calls (snd (get gh token_renew_at now ns repo w))
  = gh_calls w ++ calls_of_request gh token_renew_at w now ns repo.
Proof.
  unfold calls_of_request, expired_at.
  destruct (get_path gh token_renew_at now ns repo w)
    as [He|He Hi|i tok exp He Hi Hu Hg].
  - rewrite (finish_cached _ _ _ _ _ He), He, app_nil_r. reflexivity.
  - rewrite He, Hi. reflexivity.
  - rewrite finish_gh_calls, He, Hi, Hu. cbn [gh_calls].
    rewrite <- app_assoc. reflexivity.
Qed.

(** X6: a request that finds a record that is not expired answers with
    the stored token and leaves the world as it was: GitHub is not
    asked and nothing is written. *)
Theorem get_fresh_record (now : datetime) (ns repo : string) (w : World) :
  expired_at token_renew_at w now ns repo = false ->
  exists r tok,
    query_first ns repo (tokens w) = Some r
    /\ token r = Some tok
    /\ get gh token_renew_at now ns repo w
       = (ReturnDict [("repository", JStr repo); ("namespace", JStr ns);
                      ("access_token", JStr tok)], w).
Proof.
  unfold expired_at. intros He.
  rewrite (get_cached gh _ _ _ _ _ He).
  destruct (get_or_create_clean _ _ _ _ _ He) as [P _].
  destruct (not_expired_has_token _ _ _ He) as [tok Ht].
  unfold get_or_create in *.
  destruct (query_first ns repo (tokens w)) as [r|]; [|discriminate].
  cbn [obj] in Ht. exists r, tok. split; [reflexivity|]. split; [exact Ht|].
  unfold success_body. cbn [obj]. rewrite Ht. reflexivity.
Qed.

(** X7: a renewal that is answered 200 has stored what GitHub returned.
    The row found under the key afterwards has the token and the expiry
    of [get_access_token]'s answer, the response carries that token,
    and the calls made are the lookup and then [get_access_token] with
    the id the lookup gave. *)
Theorem get_renewed_stored (now : datetime) (ns repo : string) (w : World)
    (i : Z) (tok : string) (exp : datetime) :
  expired_at token_renew_at w now ns repo = true ->
  unwrap_inst_id (get_installation gh (gh_calls w) ns repo) = Some i ->
  i <> 0 ->
  get_access_token gh (gh_calls w ++ [GetInstallation ns repo]) i = (tok, exp) ->
  status (fst (get gh token_renew_at now ns repo w)) = 200 ->
  exists r,
    query_first ns repo (tokens (snd (get gh token_renew_at now ns repo w)))
    = Some r
    /\ token r = Some tok
    /\ expires_at r = Some exp
    /\ dict_get (body (fst (get gh token_renew_at now ns repo w)))
         "access_token" = Some (JStr tok)
    /\ gh_calls (snd (get gh token_renew_at now ns repo w))
       = gh_calls w ++ [GetInstallation ns repo; GetAccessToken i].
Proof.
  unfold expired_at. intros He Hu Hi0 Hg.
  assert (Hinst : installed_at gh w ns repo = true).
  { unfold installed_at. rewrite Hu. cbn.
    destruct (Z.eqb_spec i 0); [contradiction|reflexivity]. }
  destruct (get_path gh token_renew_at now ns repo w)
    as [He'|He' Hi'|i' tok' exp' He' Hi' Hu' Hg']; try congruence.
  assert (i' = i) by congruence. subst i'.
  assert (tok' = tok /\ exp' = exp) as [-> ->] by (split; congruence).
  match goal with |- context [finish ?s ns repo ?w'] =>
    destruct (finish_outcome s ns repo w')
      as [[-> (db & C & ->)]|[-> _]]
  end; cbn [fst snd status]; [|discriminate].
  intros _. cbn [tokens gh_calls] in *.
  destruct (commit_assigned _ _ _ _ _ _ C) as (r & Q & Ht & Hx).
  exists r. repeat split; auto.
  rewrite <- app_assoc. reflexivity.
Qed.

(** X8: what a 200 answer carries is what the table holds.  After the
    request the key has a row, and the response's "access_token" is
    that row's token. *)
Theorem response_matches_store (now : datetime) (ns repo : string)
    (w : World) :
  status (fst (get gh token_renew_at now ns repo w)) = 200 ->
  exists r,
    query_first ns repo (tokens (snd (get gh token_renew_at now ns repo w)))
    = Some r
    /\ dict_get (body (fst (get gh token_renew_at now ns repo w)))
         "access_token" = Some (json_of (token r)).
Proof.
  intros Hs. destruct (get_ok_lookup now ns repo w Hs) as (r & Q & ->).
  exists r. split; [exact Q|reflexivity].
Qed.

(** X9: the cache at work.  After a request answered 200, a request
    for the same key at a time when the stored record is not expired
    gets the same response, asks nobody and writes nothing. *)
Theorem second_request_cached (now1 now2 : datetime) (ns repo : string)
    (w : World) :
  status (fst (get gh token_renew_at now1 ns repo w)) = 200 ->
  expired_at token_renew_at (snd (get gh token_renew_at now1 ns repo w))
    now2 ns repo = false ->
  get gh token_renew_at now2 ns repo
    (snd (get gh token_renew_at now1 ns repo w))
  = (fst (get gh token_renew_at now1 ns repo w),
     snd (get gh token_renew_at now1 ns repo w)).
Proof.
  intros Hs He. destruct (get_ok_lookup now1 ns repo w Hs) as (r & Q & ->).
  unfold expired_at in He. rewrite (get_cached gh _ _ _ _ _ He).
  rewrite (get_or_create_found _ _ _ _ Q). reflexivity.
Qed.

(** X13: GitHub is asked exactly when the record is expired.  A
    request adds one [get_installation] call if the record it finds is
    expired and none otherwise, and one [get_access_token] call if
    moreover the app is installed; earlier calls stay as logged. *)
Theorem github_asked_when_expired (now : datetime) (ns repo : string)
    (w : World) :
  lookup_count (gh_calls (snd (get gh token_renew_at now ns repo w)))
  = (lookup_count (gh_calls w)
     + count_if (expired_at token_renew_at w now ns repo))%nat
  /\ issue_count (gh_calls (snd (get gh token_renew_at now ns repo w)))
     = (issue_count (gh_calls w)
        + count_if (expired_at token_renew_at w now ns repo
                    && installed_at gh w ns repo))%nat
  /\ firstn (List.length (gh_calls w))
       (gh_calls (snd (get gh token_renew_at now ns repo w)))
     = gh_calls w.
Proof.
  rewrite get_calls, lookup_count_app, issue_count_app.
  rewrite firstn_app, Nat.sub_diag, firstn_all. cbn [firstn].
  rewrite app_nil_r. unfold calls_of_request.
  destruct (expired_at token_renew_at w now ns repo); cbn [andb count_if];
    [|repeat split].
  unfold installed_at.
  destruct (unwrap_inst_id (get_installation gh (gh_calls w) ns repo))
    as [i|]; cbn [py_not negb].
  - destruct (i =? 0); repeat split.
  - repeat split.
Qed.

(** X14: serving [n] requests asks GitHub for at most [n] tokens, and
    never for a token without a lookup. *)
Theorem issues_bounded_by_requests (reqs : list request) (w : World) :
  (issue_count (gh_calls (serve gh token_renew_at reqs w))
   <= issue_count (gh_calls w) + List.length reqs)%nat
  /\ (issue_count (gh_calls (serve gh token_renew_at reqs w))
        - issue_count (gh_calls w)
      <= lookup_count (gh_calls (serve gh token_renew_at reqs w))
         - lookup_count (gh_calls w))%nat.
Proof.
  assert (K : forall reqs w,
             (issue_count (gh_calls w)
              <= issue_count (gh_calls (serve gh token_renew_at reqs w))
              <= issue_count (gh_calls w) + List.length reqs)%nat
             /\ (issue_count (gh_calls (serve gh token_renew_at reqs w))
                  + lookup_count (gh_calls w)
                 <= lookup_count (gh_calls (serve gh token_renew_at reqs w))
                    + issue_count (gh_calls w))%nat).
  { clear reqs w. induction reqs as [|q reqs IH]; intros w; [cbn; lia|].
    cbn [serve List.length]. specialize (IH (serve_one gh token_renew_at q w)).
    unfold serve_one in *. revert IH.
    rewrite (get_calls (at_time q) (req_namespace q) (req_repository q) w).
    rewrite lookup_count_app, issue_count_app. unfold calls_of_request.
    destruct (expired_at _ _ _ _ _); [|cbn; lia].
    destruct (installed_at _ _ _ _); [|cbn; lia].
    destruct (unwrap_inst_id _); cbn; lia. }
  specialize (K reqs w). lia.
Qed.

End HandlerMore.

(** * What requests leave alone *)

Section TableMore.

Variable gh : GithubIntegration.
Variable token_renew_at : Z.

Lemma set_columns_row_key (t r : Token) : row_key (set_columns t r) = row_key r.
Proof.
  unfold row_key.
  rewrite set_columns_id, set_columns_namespace, set_columns_repository.
  reflexivity.
Qed.

Lemma commit_row_keys (s : Session) (db db' : table) :
  commit s db = Some db' ->
  exists extra,
    map row_key db' = map row_key db ++ extra
    /\ (List.length extra <= 1)%nat.
Proof.
  unfold commit. destruct (pending s).
  - unfold insert_row. destruct (existsb _ db); [discriminate|].
    intros [= <-]. rewrite map_app. eexists. split; [reflexivity|]. cbn. lia.
  - destruct (modified s).
    + unfold update_row. destruct (existsb _ db); [discriminate|].
      intros [= <-]. exists []. rewrite app_nil_r, map_map.
      split; [|cbn; lia]. apply map_ext. intros r. apply set_columns_row_key.
    + intros [= <-]. exists []. rewrite app_nil_r. split; [reflexivity|cbn; lia].
Qed.

Lemma get_row_keys (now : datetime) (ns repo : string) (w : World) :
  exists extra,
    map row_key (tokens (snd (get gh token_renew_at now ns repo w)))
    = map row_key (tokens w) ++ extra
    /\ (List.length extra <= 1)%nat.
Proof.
  assert (Z0 : exists extra,
             map row_key (tokens w) = map row_key (tokens w) ++ extra
             /\ (List.length extra <= 1)%nat)
    by (exists []; rewrite app_nil_r; split; [reflexivity|cbn; lia]).
  destruct (get_path gh token_renew_at now ns repo w)
    as [He|He Hi|i tok exp He Hi Hu Hg].
  - rewrite (finish_cached _ _ _ _ _ He). exact Z0.
  - exact Z0.
  - match goal with |- context [finish ?s ns repo ?w'] =>
      destruct (finish_outcome s ns repo w')
        as [[_ (db & C & ->)]|[_ [_ ->]]]
    end; cbn [tokens snd] in *; [|exact Z0].
    exact (commit_row_keys _ _ _ C).
Qed.

(** X10: records accumulate.  Serving requests never removes a row and
    never changes the key, the namespace or the repository of a stored
    row; each request adds at most one row, at the end. *)
Theorem rows_accumulate (reqs : list request) (w : World) :
  exists extra,
    map row_key (tokens (serve gh token_renew_at reqs w))
    = map row_key (tokens w) ++ extra
    /\ (List.length extra <= List.length reqs)%nat.
Proof.
  revert w. induction reqs as [|q reqs IH]; intros w.
  - exists []. rewrite app_nil_r. split; [reflexivity|cbn; lia].
  - cbn [serve]. destruct (IH (serve_one gh token_renew_at q w)) as (e2 & E2 & L2).
    unfold serve_one in *.
    destruct (get_row_keys (at_time q) (req_namespace q) (req_repository q) w)
      as (e1 & E1 & L1).
    exists (e1 ++ e2). rewrite E2, E1, <- app_assoc.
    split; [reflexivity|]. rewrite length_app. cbn [List.length]. lia.
Qed.

(** X11: a request leaves the rows of other keys as they are.  With
    the primary key unique, a row that is not the one of the requested
    (namespace, repository) is found after the request where it was,
    unchanged. *)
Theorem other_rows_untouched (now : datetime) (ns repo : string) (w : World)
    (i : nat) (r : Token) :
  NoDup (map id (tokens w)) ->
  nth_error (tokens w) i = Some r ->
  filter_by ns repo r = false ->
  nth_error (tokens (snd (get gh token_renew_at now ns repo w))) i = Some r.
Proof.
  intros Hid Hn Hf.
  destruct (get_path gh token_renew_at now ns repo w)
    as [He|He Hi|j tok exp He Hi Hu Hg].
  - rewrite (finish_cached _ _ _ _ _ He). exact Hn.
  - exact Hn.
  - match goal with |- context [finish ?s ns repo ?w'] =>
      destruct (finish_outcome s ns repo w')
        as [[_ (db & C & ->)]|[_ [_ ->]]]
    end; cbn [tokens snd] in *; [|exact Hn].
    revert C. unfold get_or_create.
    destruct (query_first ns repo (tokens w)) as [t|] eqn:Q;
      unfold commit, assign; cbn [pending modified obj].
    + unfold update_row. destruct (existsb _ (tokens w)); [discriminate|].
      intros [= <-]. rewrite nth_error_map, Hn. cbn [option_map]. f_equal.
      unfold set_columns; cbn [id].
      destruct (opt_eqb Z.eqb (id r) (id t)) eqn:E; [|reflexivity].
      apply opt_eqb_Z_eq in E. exfalso.
      unfold query_first in Q. apply find_some in Q as [Hin Ht].
      apply In_nth_error in Hin as [k Hk].
      destruct (Nat.eq_dec i k) as [->|Hik]; [congruence|].
      exact (NoDup_map_nth id _ i k r t Hid Hn Hk Hik E).
    + unfold insert_row. destruct (existsb _ (tokens w)); [discriminate|].
      intros [= <-]. rewrite nth_error_app1; [exact Hn|].
      apply nth_error_Some. congruence.
Qed.

(** X12: one repository per namespace, one namespace per repository.
    A request for a key that has no record, while a stored row already
    has its namespace or its repository, asks GitHub for a token where
    the app is installed, and then fails at the commit: the answer is
    the [IntegrityError], the table is as before, the token is lost. *)
Theorem second_repository_refused (now : datetime) (ns repo : string)
    (w : World) (r : Token) :
  query_first ns repo (tokens w) = None ->
  In r (tokens w) ->
  namespace r = ns \/ repository r = repo ->
  installed_at gh w ns repo = true ->
  fst (get gh token_renew_at now ns repo w) = RaiseIntegrityError
  /\ status (fst (get gh token_renew_at now ns repo w)) = 500
  /\ tokens (snd (get gh token_renew_at now ns repo w)) = tokens w
  /\ issue_count (gh_calls (snd (get gh token_renew_at now ns repo w)))
     = S (issue_count (gh_calls w)).
Proof.
  intros Q Hin Hk Hi.
  assert (G : get_or_create ns repo (tokens w)
              = {| obj := new_Token ns repo; pending := true;
                   modified := false |})
    by (unfold get_or_create; rewrite Q; reflexivity).
  destruct (get_path gh token_renew_at now ns repo w)
    as [He|He Hi'|j tok exp He Hi' Hu Hg].
  - rewrite G in He. discriminate.
  - congruence.
  - rewrite G. unfold finish, commit, assign.
    cbn [pending modified obj tokens]. unfold insert_row.
    cbn [namespace repository token new_Token].
    assert (E : existsb (clashes ns repo (Some tok)) (tokens w) = true).
    { apply existsb_exists. exists r. split; [exact Hin|]. unfold clashes.
      destruct Hk as [<-|<-]; rewrite String.eqb_refl;
        rewrite ?orb_true_r; reflexivity. }
    rewrite E. cbn [fst snd status tokens gh_calls].
    repeat split. rewrite !issue_count_app. cbn. lia.
Qed.

(** X15: nothing is remembered of a failure.  While a key has no
    record every request for it asks GitHub, and a request that is not
    answered 200 leaves the table as it was, so the next one asks
    again. *)
Theorem failure_not_cached (now : datetime) (ns repo : string) (w : World) :
  query_first ns repo (tokens w) = None ->
  lookup_count (gh_calls (snd (get gh token_renew_at now ns repo w)))
  = S (lookup_count (gh_calls w))
  /\ (status (fst (get gh token_renew_at now ns repo w)) <> 200 ->
      tokens (snd (get gh token_renew_at now ns repo w)) = tokens w
      /\ query_first ns repo
           (tokens (snd (get gh token_renew_at now ns repo w))) = None).
Proof.
  intros Q.
  assert (G : get_or_create ns repo (tokens w)
              = {| obj := new_Token ns repo; pending := true;
                   modified := false |})
    by (unfold get_or_create; rewrite Q; reflexivity).
  destruct (get_path gh token_renew_at now ns repo w)
    as [He|He Hi'|j tok exp He Hi' Hu Hg].
  - rewrite G in He. discriminate.
  - cbn [fst snd tokens gh_calls]. rewrite lookup_count_app. cbn.
    split; [lia|]. intros _. split; [reflexivity|exact Q].
  - match goal with |- context [finish ?s ns repo ?w'] =>
      rewrite (finish_gh_calls s ns repo w');
      destruct (finish_outcome s ns repo w')
        as [[-> _]|[-> [_ ->]]]
    end; cbn [fst snd tokens gh_calls status];
      rewrite !lookup_count_app; cbn; (split; [lia|]).
    + intros H. congruence.
    + intros _. split; [reflexivity|exact Q].
Qed.

Lemma step_schema (t : thread) (w : World) :
  schema_ok (tokens w) ->
  schema_ok (tokens (snd (step gh token_renew_at t w))).
Proof.
  intros H.
  destruct t as [now ns repo|s ns repo|s i ns repo|s ns repo|row ns repo|o|];
    cbn [step].
  - destruct (is_expired _ _ _); exact H.
  - destruct (py_not _); [exact H|]. destruct (unwrap_inst_id _); exact H.
  - destruct (get_access_token gh (gh_calls w) i). exact H.
  - destruct (commit s (tokens w)) as [db|] eqn:C; [|exact H].
    exact (commit_schema _ _ _ H C).
  - destruct (refresh row (tokens w)); exact H.
  - exact H.
  - exact H.
Qed.

(** X16: requests in flight together cannot break the schema.
    Whatever the requests and however their steps are interleaved, the
    table keeps its primary key and its three unique columns, and so
    holds at most one row for a (namespace, repository) pair. *)
Theorem interleaving_keeps_schema (pool : list thread) (w : World)
    (sched : list nat) (ns repo : string) :
  schema_ok (tokens w) ->
  schema_ok (tokens (snd (run_sched gh token_renew_at sched (pool, w))))
  /\ (List.length
        (rows_for ns repo
           (tokens (snd (run_sched gh token_renew_at sched (pool, w)))))
      <= 1)%nat.
Proof.
  intros H.
  assert (K : schema_ok
                (tokens (snd (run_sched gh token_renew_at sched (pool, w))))).
  { change w with (snd (pool, w)) in H. revert H.
    generalize (pool, w). induction sched as [|i sched IH]; intros st H;
      [exact H|].
    cbn [run_sched]. apply IH. unfold sched_step.
    destruct (nth_error (fst st) i) as [t|]; [|exact H].
    pose proof (step_schema t (snd st) H) as S.
    destruct (step gh token_renew_at t (snd st)). exact S. }
  split; [exact K|]. apply rows_for_at_most_one. apply (unique_namespace _ K).
Qed.

End TableMore.

(** * Token and expiry, with requests in flight *)

Section InterleavingMore.

Variable gh : GithubIntegration.
Variable token_renew_at : Z.

Lemma step_in_step (t : thread) (w : World) :
  thread_wf t ->
  Forall (fun r => in_step r = true) (tokens w) ->
  thread_wf (fst (step gh token_renew_at t w))
  /\ Forall (fun r => in_step r = true)
       (tokens (snd (step gh token_renew_at t w))).
Proof.
  intros Ht Hw.
  destruct t as [now ns repo|s ns repo|s i ns repo|s ns repo|row ns repo|o|];
    cbn [step].
  - destruct (is_expired _ _ now) eqn:E; cbn [fst snd].
    + split; [exact I|exact Hw].
    + split; [|exact Hw]. left. exact (get_or_create_clean _ _ _ _ _ E).
  - destruct (py_not _); [split; [exact I|exact Hw]|].
    destruct (unwrap_inst_id _); split; try exact I; exact Hw.
  - destruct (get_access_token gh (gh_calls w) i) as [tok exp].
    cbn [fst snd tokens]. split; [|exact Hw]. right. reflexivity.
  - destruct (commit s (tokens w)) as [db|] eqn:C; cbn [fst snd tokens];
      (split; [exact I|]); [|exact Hw].
    apply (commit_in_step s (tokens w) db Hw); [| |exact C].
    + intros P. destruct Ht as [[_ M]|K]; auto.
    + intros P. destruct Ht as [[P' _]|K]; [congruence|exact K].
  - destruct (refresh row (tokens w)); split; try exact I; exact Hw.
  - cbn [fst snd]. split; [exact I|exact Hw].
  - cbn [fst snd]. split; [exact I|exact Hw].
Qed.

Lemma run_sched_in_step (sched : list nat) (st : list thread * World) :
  Forall thread_wf (fst st) ->
  Forall (fun r => in_step r = true) (tokens (snd st)) ->
  Forall (fun r => in_step r = true)
    (tokens (snd (run_sched gh token_renew_at sched st))).
Proof.
  revert st. induction sched as [|i sched IH]; intros st Hp Hw; [exact Hw|].
  cbn [run_sched]. unfold sched_step.
  destruct (nth_error (fst st) i) as [t|] eqn:N; [|apply IH; assumption].
  assert (Ht : thread_wf t).
  { rewrite Forall_forall in Hp. apply Hp. eapply nth_error_In; eauto. }
  destruct (step_in_step t (snd st) Ht Hw) as [Ht' Hw'].
  destruct (step gh token_renew_at t (snd st)) as [t' w'].
  cbn [fst snd] in *. apply IH; cbn [fst snd]; [|exact Hw'].
  apply Forall_set_nth; assumption.
Qed.

(** X17: token and expiry go together with requests in flight too.
    Requests that all start at their query, their steps interleaved in
    any order, leave every stored record with [token] and [expires_at]
    both set or both NULL. *)
Theorem interleaving_keeps_in_step (pool : list thread) (w : World)
    (sched : list nat) :
  forallb at_query pool = true ->
  Forall (fun r => in_step r = true) (tokens w) ->
  Forall (fun r => in_step r = true)
    (tokens (snd (run_sched gh token_renew_at sched (pool, w)))).
Proof.
  intros Hq Hw. apply run_sched_in_step; cbn [fst snd]; [|exact Hw].
  rewrite forallb_forall in Hq. apply Forall_forall. intros t Hin.
  specialize (Hq t Hin). destruct t; try discriminate. exact I.
Qed.

End InterleavingMore.

(** * The further theorems at work *)

(** The threshold set to a day. *)
Lemma is_expired_threshold_a_day_witness :
  is_expired 86400 (stored 1 "org" "repo" "abc" (plus_seconds 0 3600)) 0 = true.
Proof.
  apply (is_expired_threshold_a_day 86400
           (stored 1 "org" "repo" "abc" (plus_seconds 0 3600)) 0).
  unfold seconds_per_day. lia.
Defined.

(** The threshold set to zero, a day and more after the expiry. *)
Lemma is_expired_threshold_zero_witness :
  is_expired 0 (stored 1 "org" "repo" "abc" 0) (plus_seconds 0 100000) = false.
Proof.
  apply (is_expired_threshold_zero 0 (stored 1 "org" "repo" "abc" 0)
           (plus_seconds 0 100000)); [lia|discriminate|discriminate].
Defined.

(** Fifty seconds before the expiry, the threshold at 60. *)
Lemma is_expired_within_a_day_witness :
  is_expired 60 (stored 1 "org" "repo" "abc" (plus_seconds 0 3600))
    (plus_seconds 0 3550) = true
  <-> lifetime_below 60 (plus_seconds 0 3600) (plus_seconds 0 3550).
Proof.
  apply (is_expired_within_a_day 60
           (stored 1 "org" "repo" "abc" (plus_seconds 0 3600)) "abc"
           (plus_seconds 0 3600) (plus_seconds 0 3550) eq_refl eq_refl).
  vm_compute. split; [discriminate|reflexivity].
Defined.

(** An hour after the expiry. *)
Lemma is_expired_lapsed_witness :
  is_expired 60 (stored 1 "org" "repo" "abc" 0) (plus_seconds 0 3600) = false.
Proof.
  apply (is_expired_lapsed 60 (stored 1 "org" "repo" "abc" 0) "abc" 0
           (plus_seconds 0 3600) eq_refl eq_refl); [lia|].
  vm_compute. split; [reflexivity|discriminate].
Defined.

(** The second request of the scenario. *)
Lemma get_fresh_record_witness :
  exists r tok,
    query_first "org" "repo" (tokens (scenario_w1 0)) = Some r
    /\ token r = Some tok
    /\ scenario_get 0 (plus_seconds 0 10) (scenario_w1 0)
       = (ReturnDict [("repository", JStr "repo"); ("namespace", JStr "org");
                      ("access_token", JStr tok)], scenario_w1 0).
Proof.
  exact (get_fresh_record (scenario_gh 0) 60 (plus_seconds 0 10) "org" "repo"
           (scenario_w1 0) eq_refl).
Defined.

(** The first request of the scenario. *)
Lemma get_renewed_stored_witness :
  exists r,
    query_first "org" "repo" (tokens (snd (scenario_get 0 0 empty_world)))
    = Some r
    /\ token r = Some "abc"
    /\ expires_at r = Some (plus_seconds 0 3600).
Proof.
  destruct (get_renewed_stored (scenario_gh 0) 60 0 "org" "repo" empty_world
              7 "abc" (plus_seconds 0 3600) eq_refl eq_refl
              (fun H : 7 = 0 => Z.lt_irrefl 0
                 (eq_ind 7 (fun z => 0 < z) eq_refl 0 H))
              eq_refl eq_refl)
    as (r & Q & Ht & He & _).
  exists r. exact (conj Q (conj Ht He)).
Defined.

Lemma response_matches_store_witness :
  exists r,
    query_first "org" "repo" (tokens (snd (scenario_get 0 0 empty_world)))
    = Some r
    /\ dict_get (body (fst (scenario_get 0 0 empty_world))) "access_token"
       = Some (json_of (token r)).
Proof.
  exact (response_matches_store (scenario_gh 0) 60 0 "org" "repo" empty_world
           eq_refl).
Defined.

Lemma second_request_cached_witness :
  scenario_get 0 (plus_seconds 0 10) (snd (scenario_get 0 0 empty_world))
  = (fst (scenario_get 0 0 empty_world), snd (scenario_get 0 0 empty_world)).
Proof.
  exact (second_request_cached (scenario_gh 0) 60 0 (plus_seconds 0 10)
           "org" "repo" empty_world eq_refl eq_refl).
Defined.

(** A request for another key, next to the record of "org"/"repo". *)
Lemma other_rows_untouched_witness :
  nth_error
    (tokens (snd (get (counting_gh 7200) 60 0 "team" "site" one_row_world)))
    0
  = Some (stored 1 "org" "repo" "abc" (plus_seconds 0 3600)).
Proof.
  apply (other_rows_untouched (counting_gh 7200) 60 0 "team" "site"
           one_row_world 0 (stored 1 "org" "repo" "abc" (plus_seconds 0 3600))).
  - cbn. constructor; [intros []|constructor].
  - reflexivity.
  - reflexivity.
Defined.

(** A second repository of "org". *)
Lemma second_repository_refused_witness :
  fst (get (counting_gh 7200) 60 0 "org" "other" one_row_world)
  = RaiseIntegrityError
  /\ tokens (snd (get (counting_gh 7200) 60 0 "org" "other" one_row_world))
     = tokens one_row_world.
Proof.
  destruct (second_repository_refused (counting_gh 7200) 60 0 "org" "other"
              one_row_world
              (stored 1 "org" "repo" "abc" (plus_seconds 0 3600))
              eq_refl (or_introl eq_refl) (or_introl eq_refl) eq_refl)
    as (A & _ & B & _).
  exact (conj A B).
Defined.

Lemma failure_not_cached_witness :
  lookup_count (gh_calls (snd (get absent_gh 60 0 "org" "repo" empty_world)))
  = 1%nat.
Proof.
  exact (proj1 (failure_not_cached absent_gh 60 0 "org" "repo" empty_world
                  eq_refl)).
Defined.

(** The two racing requests, for a key without a record. *)
Lemma interleaving_keeps_schema_witness :
  schema_ok
    (tokens (snd (run_sched racing_gh 60 [0; 1; 0; 1; 0; 1; 0; 1; 0; 1]%nat
                    (racing_pool, empty_world)))).
Proof.
  exact (proj1 (interleaving_keeps_schema racing_gh 60 racing_pool empty_world
                  [0; 1; 0; 1; 0; 1; 0; 1; 0; 1]%nat "org" "repo"
                  schema_ok_empty)).
Defined.

Lemma interleaving_keeps_in_step_witness :
  Forall (fun r => in_step r = true)
    (tokens (snd (run_sched racing_gh 60 [0; 1; 0; 1; 0; 1; 0; 1; 0; 1]%nat
                    (racing_pool, empty_world)))).
Proof.
  exact (interleaving_keeps_in_step racing_gh 60 racing_pool empty_world
           [0; 1; 0; 1; 0; 1; 0; 1; 0; 1]%nat eq_refl (Forall_nil _)).
Defined.

(** * One record per key, over two requests *)

Section RecordPerKey.

Variable gh : GithubIntegration.
Variable token_renew_at : Z.

(** A stored record stays under its key through a request for it,
    with its id, namespace and repository. *)
Lemma get_keeps_record (now : datetime) (ns repo : string) (w : World)
    (r : Token) :
  query_first ns repo (tokens w) = Some r ->
  exists r',
    query_first ns repo (tokens (snd (get gh token_renew_at now ns repo w)))
    = Some r'
    /\ row_key r' = row_key r.
Proof.
  intros Q.
  destruct (get_path gh token_renew_at now ns repo w)
    as [He|He Hi|i tok exp He Hi Hu Hg].
  - rewrite (finish_cached _ _ _ _ _ He). exists r. split; [exact Q|reflexivity].
  - exists r. split; [exact Q|reflexivity].
  - rewrite (get_or_create_found _ _ _ _ Q). unfold finish, commit, assign.
    cbn [pending modified obj tokens]. unfold update_row.
    destruct (existsb _ (tokens w)); cbn [snd tokens].
    + exists r. split; [exact Q|reflexivity].
    + unfold query_first in *. rewrite find_map_set_columns, Q.
      cbn [option_map]. eexists. split; [reflexivity|].
      apply set_columns_row_key.
Qed.

(** A request for a key without a record, answered by GitHub, with
    nothing stored that clashes: the record is created and stored. *)
Lemma get_creates (now : datetime) (ns repo : string) (w : World)
    (i : Z) (tok : string) (exp : datetime) :
  query_first ns repo (tokens w) = None ->
  unwrap_inst_id (get_installation gh (gh_calls w) ns repo) = Some i ->
  i <> 0 ->
  get_access_token gh (gh_calls w ++ [GetInstallation ns repo]) i = (tok, exp) ->
  existsb (clashes ns repo (Some tok)) (tokens w) = false ->
  status (fst (get gh token_renew_at now ns repo w)) = 200
  /\ List.length (tokens (snd (get gh token_renew_at now ns repo w)))
     = S (List.length (tokens w)).
Proof.
  intros Q Hu Hi0 Hg Hc.
  assert (G : get_or_create ns repo (tokens w)
              = {| obj := new_Token ns repo; pending := true;
                   modified := false |})
    by (unfold get_or_create; rewrite Q; reflexivity).
  assert (Hinst : installed_at gh w ns repo = true).
  { unfold installed_at. rewrite Hu. cbn.
    destruct (Z.eqb_spec i 0); [contradiction|reflexivity]. }
  destruct (get_path gh token_renew_at now ns repo w)
    as [He|He Hi'|j tok' exp' He Hi' Hu' Hg'].
  - rewrite G in He. discriminate.
  - congruence.
  - assert (j = i) by congruence. subst j.
    assert (tok' = tok /\ exp' = exp) as [-> ->] by (split; congruence).
    rewrite G. unfold finish, commit, assign.
    cbn [pending modified obj tokens]. unfold insert_row.
    cbn [namespace repository token new_Token]. rewrite Hc.
    cbn [fst snd status tokens]. split; [reflexivity|].
    rewrite length_app. cbn [List.length]. lia.
Qed.

(** C6, as the handler has it: the table holds at most one record for
    a (namespace, repository) pair at any time.  A record that is
    stored is what the lookup returns, nothing is created in its
    place, and it stays under its key through a request, whatever the
    answer.  A record that a request creates is stored when the
    request is answered 200, as it is when GitHub gives a token and
    nothing stored clashes; the next request then finds it and the
    table does not grow.  After any other answer nothing is stored,
    and the next lookup creates an object again. *)
Theorem one_record_per_key (now1 now2 : datetime) (ns repo : string)
    (w : World) :
  schema_ok (tokens w) ->
  (forall reqs,
     (List.length (rows_for ns repo (tokens (serve gh token_renew_at reqs w)))
      <= 1)%nat)
  /\ (forall r,
        query_first ns repo (tokens w) = Some r ->
        get_or_create ns repo (tokens w)
        = {| obj := r; pending := false; modified := false |}
        /\ List.length (tokens (snd (get gh token_renew_at now1 ns repo w)))
           = List.length (tokens w)
        /\ exists r',
             query_first ns repo
               (tokens (snd (get gh token_renew_at now1 ns repo w))) = Some r'
             /\ row_key r' = row_key r)
  /\ (status (fst (get gh token_renew_at now1 ns repo w)) = 200 ->
      exists r,
        rows_for ns repo (tokens (snd (get gh token_renew_at now1 ns repo w)))
        = [r]
        /\ get_or_create ns repo
             (tokens (snd (get gh token_renew_at now1 ns repo w)))
           = {| obj := r; pending := false; modified := false |}
        /\ List.length
             (tokens (snd (get gh token_renew_at now2 ns repo
                             (snd (get gh token_renew_at now1 ns repo w)))))
           = List.length (tokens (snd (get gh token_renew_at now1 ns repo w))))
  /\ (query_first ns repo (tokens w) = None ->
      pending (get_or_create ns repo (tokens w)) = true
      /\ (status (fst (get gh token_renew_at now1 ns repo w)) <> 200 ->
          tokens (snd (get gh token_renew_at now1 ns repo w)) = tokens w
          /\ pending
               (get_or_create ns repo
                  (tokens (snd (get gh token_renew_at now1 ns repo w))))
             = true)
      /\ (forall i tok exp,
            unwrap_inst_id (get_installation gh (gh_calls w) ns repo) = Some i ->
            i <> 0 ->
            get_access_token gh (gh_calls w ++ [GetInstallation ns repo]) i
            = (tok, exp) ->
            existsb (clashes ns repo (Some tok)) (tokens w) = false ->
            status (fst (get gh token_renew_at now1 ns repo w)) = 200
            /\ List.length
                 (tokens (snd (get gh token_renew_at now1 ns repo w)))
               = S (List.length (tokens w)))).
Proof.
  intros Hok.
  pose proof (get_schema gh token_renew_at now1 ns repo w Hok) as H1.
  split; [|split; [|split]].
  - intros reqs. apply rows_for_at_most_one.
    apply (unique_namespace _ (serve_schema gh token_renew_at reqs w Hok)).
  - intros r Q. split; [exact (get_or_create_found _ _ _ _ Q)|].
    split; [exact (get_existing_length gh token_renew_at now1 ns repo w r Q)|].
    exact (get_keeps_record now1 ns repo w r Q).
  - intros Hs.
    pose proof (get_stores gh token_renew_at now1 ns repo w Hs) as Q.
    destruct (query_first ns repo
                (tokens (snd (get gh token_renew_at now1 ns repo w))))
      as [r|] eqn:F; [|congruence].
    exists r. split; [|split].
    + destruct (query_first_rows_for _ _ _ _ F) as [rest E].
      pose proof (rows_for_at_most_one ns repo _ (unique_namespace _ H1)) as L.
      rewrite E in *. destruct rest; [reflexivity|cbn in L; lia].
    + exact (get_or_create_found _ _ _ _ F).
    + exact (get_existing_length gh token_renew_at now2 ns repo _ r F).
  - intros Q.
    assert (G : forall db, query_first ns repo db = None ->
                           pending (get_or_create ns repo db) = true)
      by (intros db Qd; unfold get_or_create; rewrite Qd; reflexivity).
    split; [exact (G _ Q)|]. split.
    + intros Hs.
      assert (E : tokens (snd (get gh token_renew_at now1 ns repo w))
                  = tokens w).
      { destruct (get_path gh token_renew_at now1 ns repo w)
          as [He|He Hi|i tok exp He Hi Hu Hg].
        - rewrite (finish_cached _ _ _ _ _ He). reflexivity.
        - reflexivity.
        - revert Hs.
          match goal with |- context [finish ?s ns repo ?w'] =>
            destruct (finish_outcome s ns repo w')
              as [[-> _]|[_ [_ ->]]]
          end; cbn [fst snd status tokens]; [congruence|reflexivity]. }
      split; [exact E|]. apply G. rewrite E. exact Q.
    + intros i tok exp. exact (get_creates now1 ns repo w i tok exp Q).
Qed.

End RecordPerKey.

(** The first request of the scenario creates the record, the second
    finds it. *)
Lemma one_record_per_key_witness :
  exists r,
    rows_for "org" "repo" (tokens (snd (scenario_get 0 0 empty_world))) = [r]
    /\ get_or_create "org" "repo" (tokens (snd (scenario_get 0 0 empty_world)))
       = {| obj := r; pending := false; modified := false |}
    /\ List.length
         (tokens (snd (scenario_get 0 (plus_seconds 0 3550)
                         (snd (scenario_get 0 0 empty_world)))))
       = List.length (tokens (snd (scenario_get 0 0 empty_world))).
Proof.
  exact (proj1 (proj2 (proj2
           (one_record_per_key (scenario_gh 0) 60 0 (plus_seconds 0 3550)
              "org" "repo" empty_world schema_ok_empty))) eq_refl).
Defined.


(** C6 as stated fails: after a request that ended in the error the
    key has no record, and the lookup of the next request does not
    return an existing record but creates an object again. *)
Lemma failed_request_creates_again :
  status (fst (get absent_gh 60 0 "org" "repo" empty_world)) = 400
  /\ pending (get_or_create "org" "repo" (tokens empty_world)) = true
  /\ query_first "org" "repo"
       (tokens (snd (get absent_gh 60 0 "org" "repo" empty_world))) = None
  /\ get_or_create "org" "repo"
       (tokens (snd (get absent_gh 60 0 "org" "repo" empty_world)))
     = {| obj := new_Token "org" "repo"; pending := true; modified := false |}.
Proof. vm_compute. repeat split. Qed.

